(** * Visual Leak Detector: the internal heap ([src/vldheap.cpp]) and the
      load-cycle contract exercised by [tests/vld_unload/vld_unload.cpp].

    The allocator is embedded as a state-and-trace monad over the globals of
    [vldheap.cpp]; pointers are integers with [0] for [nullptr], [size_t]
    arithmetic wraps at the width of the build target. *)

From Stdlib Require Import ZArith List Lia.
From stdpp Require Import base option list gmap.

Local Open Scope Z_scope.

(** ** Build targets

    The test selects [vld_x86.dll] or [vld_x64.dll] by [_WIN64]; the two
    targets differ in the width of [size_t] and in [sizeof(vldblockheader_t)].
    The header type is declared in [vldheap.h]; the allocator uses it through
    its six fields, [sizeof] and the two offset macros, so its size is a
    parameter of the target.  The two instances take the size of two links,
    a file pointer, an [int] line and two [size_t] under natural alignment. *)

Class Platform := {
  size_bits : Z;
  header_size : Z;
  size_bits_pos : 0 < size_bits;
  header_size_pos : 0 < header_size
}.

Definition x86 : Platform :=
  {| size_bits := 32; header_size := 24;
     size_bits_pos := eq_refl; header_size_pos := eq_refl |}.

Definition x64 : Platform :=
  {| size_bits := 64; header_size := 48;
     size_bits_pos := eq_refl; header_size_pos := eq_refl |}.

Module VldHeap.

Definition nullptr : Z := 0.

(** [vldblockheader_t]: the six fields [vldnew] fills in. *)
Record vldblockheader_t := Header {
  next : Z;
  prev : Z;
  file : Z;
  line : Z;
  serialNumber : Z;
  size : Z
}.

(** Some content of memory that was never written. *)
Definition junk : vldblockheader_t := Header 7 7 7 7 7 7.

Definition set_next (v : Z) (h : vldblockheader_t) :=
  Header v (prev h) (file h) (line h) (serialNumber h) (size h).
Definition set_prev (v : Z) (h : vldblockheader_t) :=
  Header (next h) v (file h) (line h) (serialNumber h) (size h).
Definition set_file (v : Z) (h : vldblockheader_t) :=
  Header (next h) (prev h) v (line h) (serialNumber h) (size h).
Definition set_line (v : Z) (h : vldblockheader_t) :=
  Header (next h) (prev h) (file h) v (serialNumber h) (size h).
Definition set_serialNumber (v : Z) (h : vldblockheader_t) :=
  Header (next h) (prev h) (file h) (line h) v (size h).
Definition set_size (v : Z) (h : vldblockheader_t) :=
  Header (next h) (prev h) (file h) (line h) (serialNumber h) v.

(** The globals of [vldheap.cpp] together with the function-local static
    [serialnumber] of [vldnew].  [heap] is the content of the private heap
    behind [g_vldHeap]: the headers of the blocks currently allocated from
    it, keyed by header address. *)
Record state := State {
  g_vldBlockList : Z;
  serialnumber : Z;
  heap : gmap Z vldblockheader_t
}.

(** The values the image starts with: [g_vldBlockList = nullptr],
    [static size_t serialnumber = 0], and a private heap with no block. *)
Definition init_state : state := State nullptr 0 ∅.

Inductive field := Fnext | Fprev | Ffile | Fline | FserialNumber | Fsize.

Definition get_field (f : field) (h : vldblockheader_t) : Z :=
  match f with
  | Fnext => next h
  | Fprev => prev h
  | Ffile => file h
  | Fline => line h
  | FserialNumber => serialNumber h
  | Fsize => size h
  end.

Definition set_field (f : field) (v : Z) (h : vldblockheader_t) : vldblockheader_t :=
  match f with
  | Fnext => set_next v h
  | Fprev => set_prev v h
  | Ffile => set_file v h
  | Fline => set_line v h
  | FserialNumber => set_serialNumber v h
  | Fsize => set_size v h
  end.

(** What a call does, in program order: its calls to the operating system
    heap, taking and dropping the heap mutex, and its reads ([write] is
    [false]) and writes of [g_vldBlockList], of [serialnumber] and of the
    fields of block headers. *)
Inductive event :=
| EvRtlAllocateHeap (bytes : Z) (result : Z)
| EvRtlFreeHeap (header : Z) (freed : bool)
| EvLock
| EvUnlock
| EvHead (write : bool)
| EvSerial (write : bool)
| EvField (header : Z) (f : field) (write : bool).

(** A call either returns, stops at a failed [assert], or touches memory
    that is not an allocated block. *)
Inductive outcome (A : Type) :=
| Done (a : A) (s : state) (tr : list event)
| AssertFail
| Fault.
Arguments Done {A} a s tr.
Arguments AssertFail {A}.
Arguments Fault {A}.

Definition M (A : Type) : Type := state → outcome A.

Definition ret {A} (a : A) : M A := λ s, Done a s [].

Definition bind {A B} (m : M A) (k : A → M B) : M B := λ s,
  match m s with
  | Done a s1 tr1 =>
      match k a s1 with
      | Done b s2 tr2 => Done b s2 (tr1 ++ tr2)
      | AssertFail => AssertFail
      | Fault => Fault
      end
  | AssertFail => AssertFail
  | Fault => Fault
  end.

#[export] Instance M_ret : MRet M := @ret.
#[export] Instance M_bind : MBind M := λ A B k m, bind m k.

Definition assert (b : bool) : M unit := λ s,
  if b then Done tt s [] else AssertFail.

Definition emit (e : event) : M unit := λ s, Done tt s [e].

(** [a->f] as a value and [a->f = v]. *)
Definition load (a : Z) (f : field) : M Z := λ s,
  match heap s !! a with
  | Some h => Done (get_field f h) s [EvField a f false]
  | None => Fault
  end.

Definition store (a : Z) (f : field) (v : Z) : M unit := λ s,
  match heap s !! a with
  | Some h =>
      Done tt (State (g_vldBlockList s) (serialnumber s) (<[a := set_field f v h]> (heap s)))
           [EvField a f true]
  | None => Fault
  end.

Definition read_g_vldBlockList : M Z := λ s,
  Done (g_vldBlockList s) s [EvHead false].

Definition write_g_vldBlockList (v : Z) : M unit := λ s,
  Done tt (State v (serialnumber s) (heap s)) [EvHead true].

(** [std::scoped_lock lock(get_heap_mutex())] guarding the rest of the
    function body: taken at the declaration, dropped when the body returns. *)
Definition scoped_lock {A} (body : M A) : M A :=
  emit EvLock;; r ← body; emit EvUnlock;; ret r.

Section Target.
Context `{Platform}.

(** Modelled from the spec: the macro [VLDBLOCKDATA] of [vldheap.h] is
    missing; the data section of a block starts at the first byte after its
    header.  The sum stays inside the allocated block, so it does not
    wrap. *)
Definition VLDBLOCKDATA (h : Z) : Z := h + header_size.

(** Modelled from the spec: the macro [VLDBLOCKHEADER] of [vldheap.h] is
    missing; the header is recovered from a data pointer by the same fixed
    offset. *)
Definition VLDBLOCKHEADER (d : Z) : Z := d - header_size.

(** [RtlAllocateHeap(g_vldHeap, 0x0, bytes)].  The answer of the operating
    system is an input: [os] is the address it returns ([nullptr] when it
    fails) and [junk] the content the fresh block happens to have (the flags
    do not ask for zeroed memory). *)
Definition RtlAllocateHeap (os : Z) (junk : vldblockheader_t) (bytes : Z) : M Z := λ s,
  if os =? nullptr then Done nullptr s [EvRtlAllocateHeap bytes nullptr]
  else Done os (State (g_vldBlockList s) (serialnumber s) (<[os := junk]> (heap s)))
            [EvRtlAllocateHeap bytes os].

(** [RtlFreeHeap(g_vldHeap, 0x0, header)]: releases an allocated block and
    reports whether it did. *)
Definition RtlFreeHeap (header : Z) : M bool := λ s,
  match heap s !! header with
  | Some _ => Done true (State (g_vldBlockList s) (serialnumber s) (delete header (heap s)))
                   [EvRtlFreeHeap header true]
  | None => Done false s [EvRtlFreeHeap header false]
  end.

(** [serialnumber++] on a [size_t]. *)
Definition serialnumber_postinc : M Z := λ s,
  Done (serialnumber s)
       (State (g_vldBlockList s) ((serialnumber s + 1) mod 2 ^ size_bits) (heap s))
       [EvSerial false; EvSerial true].

Definition vldnew (os : Z) (junk : vldblockheader_t) (size file line : Z) : M Z :=
  assert (0 <? size);;
  assert (negb (file =? nullptr));;
  assert (0 <? line);;
  header ← RtlAllocateHeap os junk ((size + header_size) mod 2 ^ size_bits);
  if header =? nullptr then ret nullptr
  else
    store header Ffile file;;
    store header Fline line;;
    sn ← serialnumber_postinc;
    store header FserialNumber sn;;
    store header Fsize size;;
    scoped_lock (
      head ← read_g_vldBlockList;
      store header Fnext head;;
      n ← load header Fnext;
      (if negb (n =? nullptr) then
         n' ← load header Fnext;
         store n' Fprev header
       else ret tt);;
      store header Fprev nullptr;;
      write_g_vldBlockList header;;
      ret (VLDBLOCKDATA header)).

Definition vlddelete (block : Z) : M unit :=
  if block =? nullptr then ret tt
  else
    let header := VLDBLOCKHEADER block in
    scoped_lock (
      p ← load header Fprev;
      (if negb (p =? nullptr) then
         p' ← load header Fprev;
         n ← load header Fnext;
         store p' Fnext n
       else
         n ← load header Fnext;
         write_g_vldBlockList n);;
      n ← load header Fnext;
      (if negb (n =? nullptr) then
         n' ← load header Fnext;
         p' ← load header Fprev;
         store n' Fprev p'
       else ret tt);;
      freed ← RtlFreeHeap header;
      assert freed).

(** The four [operator new] and [operator delete] overloads forward to the
    two helpers. *)
Definition operator_new := vldnew.
Definition operator_delete := vlddelete.

(** ** Sequences of calls *)

Inductive call :=
| New (os : Z) (junk : vldblockheader_t) (size file line : Z)
| Delete (block : Z).

(** One entry per allocation that returned a block: the pointer handed to
    the caller and the header found in front of it when the call returns. *)
Definition allocation : Type := Z * vldblockheader_t.

Definition record_allocation (p : Z) (s : state) : list allocation :=
  if p =? nullptr then []
  else match heap s !! VLDBLOCKHEADER p with
       | Some h => [(p, h)]
       | None => []
       end.

Fixpoint run (t : list call) (s : state) : option (state * list allocation) :=
  match t with
  | [] => Some (s, [])
  | New os junk sz f ln :: t' =>
      match vldnew os junk sz f ln s with
      | Done p s1 _ =>
          match run t' s1 with
          | Some (s2, log) => Some (s2, record_allocation p s1 ++ log)
          | None => None
          end
      | _ => None
      end
  | Delete b :: t' =>
      match vlddelete b s with
      | Done _ s1 _ => run t' s1
      | _ => None
      end
  end.

Definition serials (log : list allocation) : list Z :=
  map (λ a, serialNumber (snd a)) log.

(** The blocks handed out and not yet given back, newest first, as the
    history of calls determines them. *)
Definition live_step (live : list Z) (c : call) : list Z :=
  match c with
  | New os _ _ _ _ => if os =? nullptr then live else VLDBLOCKDATA os :: live
  | Delete b => if b =? nullptr then live else filter (λ p, p ≠ b) live
  end.

Definition live_after (live : list Z) (t : list call) : list Z :=
  fold_left live_step t live.

Definition is_live (p : Z) (live : list Z) : bool := existsb (Z.eqb p) live.

(** A call the allocator can legitimately see: [vldnew] with its documented
    arguments and an answer of the operating system that is either a failure
    or a block that is not one of the outstanding ones; [vlddelete] on
    [nullptr] or on an outstanding block. *)
Definition valid_call (live : list Z) (c : call) : bool :=
  match c with
  | New os _ sz f ln =>
      (0 <? sz) && negb (f =? nullptr) && (0 <? ln) &&
      ((os =? nullptr) || ((0 <? os) && negb (is_live (VLDBLOCKDATA os) live)))
  | Delete b => (b =? nullptr) || is_live b live
  end.

Fixpoint valid_trace (live : list Z) (t : list call) : bool :=
  match t with
  | [] => true
  | c :: t' => valid_call live c && valid_trace (live_step live c) t'
  end.

Definition successful (c : call) : bool :=
  match c with
  | New os _ _ _ _ => negb (os =? nullptr)
  | Delete _ => false
  end.

(** Number of allocations of a sequence of calls that return a block. *)
Definition successes (t : list call) : nat :=
  length (List.filter successful t).

(** The values [serialnumber++] yields in [n] consecutive evaluations that
    start with the counter at [s0], and the counter after them. *)
Fixpoint serial_run (s0 : Z) (n : nat) : list Z :=
  match n with
  | O => []
  | S n' => s0 :: serial_run ((s0 + 1) mod 2 ^ size_bits) n'
  end.

Fixpoint serial_after (s0 : Z) (n : nat) : Z :=
  match n with
  | O => s0
  | S n' => serial_after ((s0 + 1) mod 2 ^ size_bits) n'
  end.

(** ** The registry as a doubly linked list *)

(** [dll m pp cur l]: following [next] from [cur] visits exactly the blocks
    [l] and then reaches [nullptr], and every block's [prev] is the block
    visited before it ([pp] for the first). *)
Fixpoint dll (m : gmap Z vldblockheader_t) (pp cur : Z) (l : list Z) : Prop :=
  match l with
  | [] => cur = nullptr
  | a :: l' =>
      cur = a ∧ a ≠ nullptr ∧
      ∃ h, m !! a = Some h ∧ prev h = pp ∧ dll m a (next h) l'
  end.

Definition registry_inv (s : state) (l : list Z) : Prop :=
  dll (heap s) nullptr (g_vldBlockList s) l ∧ NoDup l ∧
  ∀ a, is_Some (heap s !! a) ↔ a ∈ l.

(** Executable traversal of the registry from its head. *)
Fixpoint walk (fuel : nat) (m : gmap Z vldblockheader_t) (cur : Z) : option (list Z) :=
  if cur =? nullptr then Some []
  else match fuel with
       | O => None
       | S fuel' =>
           match m !! cur with
           | Some h => option_map (cons cur) (walk fuel' m (next h))
           | None => None
           end
       end.

(** The registry of [s] consists of exactly [blocks]: the walk from the
    head along [next] visits them in this order and ends at [nullptr], no
    block occurs twice, they are the allocated blocks, the head has no
    predecessor, and neighbours point at each other. *)
Definition registry_consistent (s : state) (blocks : list Z) : Prop :=
  walk (length blocks) (heap s) (g_vldBlockList s) = Some blocks ∧
  NoDup blocks ∧
  (∀ a, is_Some (heap s !! a) ↔ a ∈ blocks) ∧
  (∀ h, heap s !! g_vldBlockList s = Some h → prev h = nullptr) ∧
  (∀ b hb, heap s !! b = Some hb → next hb ≠ nullptr →
     ∃ hn, heap s !! next hb = Some hn ∧ prev hn = b) ∧
  (∀ b hb, heap s !! b = Some hb → prev hb ≠ nullptr →
     ∃ hp, heap s !! prev hb = Some hp ∧ next hp = b).

(** ** The effect of one call in closed form

    [vldnew_eq] and [vlddelete_eq] below prove that the two helpers compute
    exactly these states. *)

Definition alter_nz (f : vldblockheader_t → vldblockheader_t) (a : Z)
    (m : gmap Z vldblockheader_t) : gmap Z vldblockheader_t :=
  if a =? nullptr then m else alter f a m.

Definition linked (os sz f ln : Z) (s : state) : state :=
  State os ((serialnumber s + 1) mod 2 ^ size_bits)
    (<[os := Header (g_vldBlockList s) nullptr f ln (serialnumber s) sz]>
       (alter_nz (set_prev os) (g_vldBlockList s) (heap s))).

Definition unlinked (header : Z) (h : vldblockheader_t) (s : state) : state :=
  State (if prev h =? nullptr then next h else g_vldBlockList s) (serialnumber s)
    (delete header
       (alter_nz (set_prev (prev h)) (next h)
          (alter_nz (set_next (next h)) (prev h) (heap s)))).

(** The byte count [vldnew] asks the operating system for. *)
Definition request (sz : Z) : Z := (sz + header_size) mod 2 ^ size_bits.

(** The events of a [vldnew] that gets block [os] while the list head is
    [head], and of a [vlddelete] of the block whose header [h] is at
    [header]. *)
Definition new_events (os sz head : Z) : list event :=
  [EvRtlAllocateHeap (request sz) os;
   EvField os Ffile true; EvField os Fline true;
   EvSerial false; EvSerial true;
   EvField os FserialNumber true; EvField os Fsize true;
   EvLock;
   EvHead false; EvField os Fnext true; EvField os Fnext false] ++
  (if head =? nullptr then []
   else [EvField os Fnext false; EvField head Fprev true]) ++
  [EvField os Fprev true; EvHead true;
   EvUnlock].

Definition delete_events (header : Z) (h : vldblockheader_t) : list event :=
  [EvLock;
   EvField header Fprev false] ++
  (if prev h =? nullptr then [EvField header Fnext false; EvHead true]
   else [EvField header Fprev false; EvField header Fnext false;
         EvField (prev h) Fnext true]) ++
  [EvField header Fnext false] ++
  (if next h =? nullptr then []
   else [EvField header Fnext false; EvField header Fprev false;
         EvField (next h) Fprev true]) ++
  [EvRtlFreeHeap header true;
   EvUnlock].

(** The three [assert]s at the entry of [vldnew]. *)
Definition args_ok (sz f ln : Z) : bool :=
  (0 <? sz) && negb (f =? nullptr) && (0 <? ln).

(** The blocks the link and unlink steps write to are allocated. *)
Definition can_link (os : Z) (s : state) : bool :=
  (g_vldBlockList s =? nullptr) || (g_vldBlockList s =? os) ||
  bool_decide (is_Some (heap s !! g_vldBlockList s)).

Definition can_unlink (h : vldblockheader_t) (s : state) : bool :=
  ((prev h =? nullptr) || bool_decide (is_Some (heap s !! prev h))) &&
  ((next h =? nullptr) || bool_decide (is_Some (heap s !! next h))).

(** ** Serial numbers over a load cycle

    Two properties of a build target: the serial numbers handed out after a
    reset increase strictly in the order of the calls, and they are
    [0, 1, 2, ...] without gaps. *)
Definition serials_always_increase : Prop :=
  ∀ t s log, valid_trace [] t = true → run t init_state = Some (s, log) →
  ∀ i j si sj, (i < j)%nat →
    serials log !! i = Some si → serials log !! j = Some sj → si < sj.

Definition serials_always_consecutive : Prop :=
  ∀ t s log, valid_trace [] t = true → run t init_state = Some (s, log) →
  serials log = Z.of_nat <$> seq 0 (successes t).

(** [n] rounds of allocating a block and giving it back, followed by the
    calls [k]. *)
Fixpoint churn (n : nat) (k : list call) : list call :=
  match n with
  | O => k
  | S n' => New 4096 junk 1 4096 1
            :: Delete (VLDBLOCKDATA 4096) :: churn n' k
  end.

Definition one_more : list call := [New 4096 junk 1 4096 1].

(** What unlinking a block with header [h] does to the header [hb] of
    another block [b]. *)
Definition patch (h : vldblockheader_t) (b : Z) (hb : vldblockheader_t) :=
  let hb1 := if decide (b = prev h) then set_next (next h) hb else hb in
  if decide (b = next h) then set_prev (prev h) hb1 else hb1.

End Target.

(** ** Lock scope

    The events of a sequence that happen while the heap mutex is held, and
    those that happen while it is not. *)
Fixpoint under_lock (held : bool) (tr : list event) : list event :=
  match tr with
  | [] => []
  | EvLock :: tr' => under_lock true tr'
  | EvUnlock :: tr' => under_lock false tr'
  | e :: tr' => (if held then [e] else []) ++ under_lock held tr'
  end.

Fixpoint outside_lock (held : bool) (tr : list event) : list event :=
  match tr with
  | [] => []
  | EvLock :: tr' => outside_lock true tr'
  | EvUnlock :: tr' => outside_lock false tr'
  | e :: tr' => (if held then [] else [e]) ++ outside_lock held tr'
  end.

Definition is_os_call (e : event) : bool :=
  match e with
  | EvRtlAllocateHeap _ _ | EvRtlFreeHeap _ _ => true
  | _ => false
  end.

(** The registry is the list head and the [next] and [prev] links. *)
Definition is_registry_access (e : event) : bool :=
  match e with
  | EvHead _ | EvField _ Fnext _ | EvField _ Fprev _ => true
  | _ => false
  end.

Definition os_calls_under_lock (tr : list event) : list event :=
  List.filter is_os_call (under_lock false tr).

(** Two headers that agree on everything but the links. *)
Definition same_provenance (h h' : vldblockheader_t) : Prop :=
  size h' = size h ∧ file h' = file h ∧ line h' = line h ∧
  serialNumber h' = serialNumber h.

(** ** Sample inputs *)

(** Three allocations around a failed one, then two of the blocks and a
    null pointer are given back. *)
Definition sample_calls `{Platform} : list call :=
  [New 1000 junk 8 500 10; New 2000 junk 16 500 11; New nullptr junk 16 500 11;
   New 3000 junk 1 500 12; Delete (VLDBLOCKDATA 2000); Delete nullptr;
   Delete (VLDBLOCKDATA 3000)].

(** The property that neither helper calls the operating system heap while
    it holds the heap mutex. *)
Definition lock_never_spans_os_call `{Platform} : Prop :=
  (∀ os junk sz f ln s p s' tr,
     vldnew os junk sz f ln s = Done p s' tr →
     os_calls_under_lock tr = []) ∧
  (∀ b s u s' tr,
     vlddelete b s = Done u s' tr →
     os_calls_under_lock tr = []).

(** ** The operators of [vldheap.cpp]

    [operator new] is [operator_new] above; its vector form and the four
    [operator delete] overloads forward to the same two helpers, the
    placement forms without looking at the file and line they are given. *)
Section Operators.
Context `{Platform}.

Definition operator_new_array (os : Z) (junk : vldblockheader_t) (size file line : Z) : M Z :=
  vldnew os junk size file line.

Definition operator_delete_array (block : Z) : M unit :=
  vlddelete block.

Definition operator_delete_placement (block : Z) (_file _line : Z) : M unit :=
  vlddelete block.

Definition operator_delete_array_placement (block : Z) (_file _line : Z) : M unit :=
  vlddelete block.

Inductive new_operator := ScalarNew | VectorNew.

Inductive delete_operator :=
| ScalarDelete
| VectorDelete
| ScalarPlacementDelete (file line : Z)
| VectorPlacementDelete (file line : Z).

Definition call_new (op : new_operator) : Z → vldblockheader_t → Z → Z → Z → M Z :=
  match op with
  | ScalarNew => operator_new
  | VectorNew => operator_new_array
  end.

Definition call_delete (op : delete_operator) (block : Z) : M unit :=
  match op with
  | ScalarDelete => operator_delete block
  | VectorDelete => operator_delete_array block
  | ScalarPlacementDelete f ln => operator_delete_placement block f ln
  | VectorPlacementDelete f ln => operator_delete_array_placement block f ln
  end.

(** A call that gets past the early returns: an allocation the operating
    system grants, or a deallocation of a non-null pointer. *)
Definition effective (c : call) : bool :=
  match c with
  | New os _ _ _ _ => negb (os =? nullptr)
  | Delete b => negb (b =? nullptr)
  end.

(** The arguments of a call pass the assertions at the entry of [vldnew]. *)
Definition well_called (c : call) : bool :=
  match c with
  | New _ _ sz f ln => args_ok sz f ln
  | Delete _ => true
  end.

Definition is_deletion (c : call) : bool :=
  match c with
  | New _ _ _ _ _ => false
  | Delete b => negb (b =? nullptr)
  end.

(** Number of deallocations of a sequence of calls that free a block. *)
Definition deletions (t : list call) : nat :=
  length (List.filter is_deletion t).

(** The serial numbers found by following [next] from [cur] for at most
    [fuel] blocks. *)
Fixpoint walk_serials (fuel : nat) (m : gmap Z vldblockheader_t) (cur : Z) : list Z :=
  if cur =? nullptr then []
  else match fuel with
       | O => []
       | S fuel' =>
           match m !! cur with
           | Some h => serialNumber h :: walk_serials fuel' m (next h)
           | None => []
           end
       end.

(** The serial numbers in the headers of the blocks [l]. *)
Definition header_serials (m : gmap Z vldblockheader_t) (l : list Z) : list Z :=
  (λ a, default 0 (serialNumber <$> m !! a)) <$> l.

(** A list of numbers that goes strictly down. *)
Fixpoint descending (l : list Z) : Prop :=
  match l with
  | [] => True
  | x :: l' => (∀ y, y ∈ l' → y < x) ∧ descending l'
  end.

End Operators.

(** ** Several threads

    [operator new] can be entered by any thread of the process.  A call is
    laid out here as the sequence of its statements, each one a step on the
    shared state that the steps of other threads can come between.  Taking
    the heap mutex and dropping it are steps of their own, and
    [serialnumber++] is two, the read of the counter and the write of the
    incremented value: the counter is a plain [size_t], not an atomic. *)
Inductive prog (A : Type) : Type :=
| Ret (a : A)
| Do {X : Type} (m : M X) (k : X → prog A)
| Lock (k : prog A)
| Unlock (k : prog A).
Arguments Ret {A} a.
Arguments Do {A X} m k.
Arguments Lock {A} k.
Arguments Unlock {A} k.

Fixpoint prog_bind {A B} (p : prog A) (k : A → prog B) : prog B :=
  match p with
  | Ret a => k a
  | Do m k' => Do m (λ x, prog_bind (k' x) k)
  | Lock p' => Lock (prog_bind p' k)
  | Unlock p' => Unlock (prog_bind p' k)
  end.

#[global] Instance prog_ret : MRet prog := @Ret.
#[global] Instance prog_mbind : MBind prog := λ A B k p, prog_bind p k.

(** One statement as a step. *)
Definition stmt {X} (m : M X) : prog X := Do m Ret.

Definition scoped_lock_steps {A} (body : prog A) : prog A :=
  Lock (Ret tt);; r ← body; Unlock (Ret tt);; mret r.

(** The steps of one thread run without any other thread in between. *)
Fixpoint exec_prog {A} (p : prog A) : M A :=
  match p with
  | Ret a => ret a
  | Do m k => x ← m; exec_prog (k x)
  | Lock k => emit EvLock;; exec_prog k
  | Unlock k => emit EvUnlock;; exec_prog k
  end.

(** The two halves of [serialnumber++]. *)
Definition read_serialnumber : M Z := λ s,
  Done (serialnumber s) s [EvSerial false].

Definition write_serialnumber (v : Z) : M unit := λ s,
  Done tt (State (g_vldBlockList s) v (heap s)) [EvSerial true].

(** The threads of a process: the shared state of the allocator, the
    thread that holds the heap mutex, what each thread has left to do, and
    the events so far, each with the thread it belongs to. *)
Record machine (A : Type) := Machine {
  shared : state;
  mutex : option nat;
  threads : list (prog A);
  events : list (nat * event)
}.
Arguments Machine {A} shared mutex threads events.
Arguments shared {A} m.
Arguments mutex {A} m.
Arguments threads {A} m.
Arguments events {A} m.

(** Thread [i] takes its next step.  A thread that asks for the mutex while
    another one holds it waits; a thread that has returned stays as it is.
    [None] when the step faults or an assertion fails. *)
Definition step_thread {A} (i : nat) (mc : machine A) : option (machine A) :=
  match threads mc !! i with
  | Some (Do m k) =>
      match m (shared mc) with
      | Done x s' tr =>
          Some (Machine s' (mutex mc) (<[i := k x]> (threads mc))
                        (events mc ++ ((λ e, (i, e)) <$> tr)))
      | _ => None
      end
  | Some (Lock k) =>
      match mutex mc with
      | None =>
          Some (Machine (shared mc) (Some i) (<[i := k]> (threads mc))
                        (events mc ++ [(i, EvLock)]))
      | Some _ => Some mc
      end
  | Some (Unlock k) =>
      Some (Machine (shared mc) None (<[i := k]> (threads mc))
                    (events mc ++ [(i, EvUnlock)]))
  | _ => Some mc
  end.

(** The threads take steps in the order the scheduler picks them. *)
Fixpoint run_schedule {A} (sched : list nat) (mc : machine A) : option (machine A) :=
  match sched with
  | [] => Some mc
  | i :: sched' =>
      match step_thread i mc with
      | Some mc' => run_schedule sched' mc'
      | None => None
      end
  end.

Definition start {A} (s : state) (ps : list (prog A)) : machine A :=
  Machine s None ps [].

(** What each thread has returned, if it has. *)
Definition returned {A} (mc : machine A) : list (option A) :=
  (λ p, match p with Ret a => Some a | _ => None end) <$> threads mc.

(** The serial number in the header at [header], if it is allocated. *)
Definition serial_of {A} (mc : machine A) (header : Z) : option Z :=
  serialNumber <$> heap (shared mc) !! header.

Definition is_serial_access (e : nat * event) : bool :=
  match e.2 with
  | EvSerial _ => true
  | _ => false
  end.

Section Threads.
Context `{Platform}.

(** [vldnew], statement by statement. *)
Definition vldnew_steps (os : Z) (junk : vldblockheader_t) (size file line : Z) : prog Z :=
  stmt (assert (0 <? size));;
  stmt (assert (negb (file =? nullptr)));;
  stmt (assert (0 <? line));;
  header ← stmt (RtlAllocateHeap os junk ((size + header_size) mod 2 ^ size_bits));
  if header =? nullptr then mret nullptr
  else
    stmt (store header Ffile file);;
    stmt (store header Fline line);;
    sn ← stmt read_serialnumber;
    stmt (write_serialnumber ((sn + 1) mod 2 ^ size_bits));;
    stmt (store header FserialNumber sn);;
    stmt (store header Fsize size);;
    scoped_lock_steps (
      head ← stmt read_g_vldBlockList;
      stmt (store header Fnext head);;
      n ← stmt (load header Fnext);
      (if negb (n =? nullptr) then
         n' ← stmt (load header Fnext);
         stmt (store n' Fprev header)
       else mret tt);;
      stmt (store header Fprev nullptr);;
      stmt (write_g_vldBlockList header);;
      mret (VLDBLOCKDATA header)).

(** Two schedules for two threads that each call [vldnew] once.  A call
    takes 17 steps when the registry is empty and 19 when it is not; a
    thread scheduled after it has returned does nothing.  In the first
    schedule thread 0 runs up to the read of the counter, thread 1 runs its
    whole call, then thread 0 finishes; in the second thread 0 runs its
    whole call before thread 1 starts. *)
Definition lost_update : list nat :=
  replicate 7 0%nat ++ replicate 19 1%nat ++ replicate 12 0%nat.

Definition one_after_the_other : list nat :=
  replicate 19 0%nat ++ replicate 19 1%nat.

End Threads.

End VldHeap.

(** * The load cycle

    [DllMain] and the exported queries of the detector are not part of the
    two source files; the test [vld_unload.cpp] only probes them from
    outside. *)
Module LoadCycle.
Import VldHeap.

(** Process-wide state of the detector: the load depth, the allocator's
    image, the number of unresolved allocations of the host recorded by the
    interception layer, and the leak counts reported at teardowns. *)
Record process := Process {
  load_depth : nat;
  vld : state;
  tracked : nat;
  reports : list nat
}.

Definition boot : process := Process 0 init_state 0 [].

(** Modelled from the spec: [onLoad] is missing from the sources.  The
    counter is incremented; on the transition from 0 to 1 the private heap
    is initialised, the serial-number generator is zeroed and the registry
    and the tracking state start empty. *)
Definition onLoad (p : process) : process :=
  match load_depth p with
  | O => Process 1 init_state 0 (reports p)
  | S n => Process (S (S n)) (vld p) (tracked p) (reports p)
  end.

(** Modelled from the spec: [onUnload] is missing from the sources.  The
    counter is decremented; on the transition from 1 to 0 the final leak
    report is produced, the heap region is released and the registry and
    all tracking state are cleared.  Without a matching load there is
    nothing to unload. *)
Definition onUnload (p : process) : process :=
  match load_depth p with
  | O => p
  | S O => Process 0 (State nullptr (serialnumber (vld p)) ∅) 0
                   (reports p ++ [tracked p])
  | S (S n) => Process (S n) (vld p) (tracked p) (reports p)
  end.

(** Modelled from the spec: the interception layer, missing from the
    sources, records an allocation of the host as unresolved; it is
    installed only while the detector is loaded. *)
Definition host_alloc (p : process) : process :=
  match load_depth p with
  | O => p
  | S _ => Process (load_depth p) (vld p) (S (tracked p)) (reports p)
  end.

(** Modelled from the spec: the interception layer, missing from the
    sources, drops an allocation from the unresolved ones when the host
    frees it. *)
Definition host_free (p : process) : process :=
  match load_depth p with
  | O => p
  | S _ => Process (load_depth p) (vld p) (pred (tracked p)) (reports p)
  end.

(** Modelled from the spec: [queryActiveLeakCount], missing from the
    sources, exists only while the counter is at least 1. *)
Definition queryActiveLeakCount (p : process) : option nat :=
  match load_depth p with
  | O => None
  | S _ => Some (tracked p)
  end.

(** Conversions to [UINT] and to [int]. *)
Definition UINT (z : Z) : Z := z mod 2 ^ 32.
Definition INT (z : Z) : Z := (z + 2 ^ 31) mod 2 ^ 32 - 2 ^ 31.

(** Modelled from the spec: the loader answers [GetModuleHandle(sVld_dll)]
    with the handle of the module while it is loaded and with [NULL]
    ([None]) once it has been fully unloaded; the handle stands for the
    loaded image. *)
Definition GetModuleHandle (p : process) : option process :=
  match load_depth p with
  | O => None
  | S _ => Some p
  end.

(** Modelled from the spec: [GetProcAddress(vld_module, "VLDGetLeaksCount")]
    yields the exported leak-count query of the loaded module, which
    returns its count as a [UINT]. *)
Definition GetProcAddress_VLDGetLeaksCount (vld_module : process) : option (unit → Z) :=
  match queryActiveLeakCount vld_module with
  | Some n => Some (λ _, UINT (Z.of_nat n))
  | None => None
  end.

(** [VLDGetLeaksCount] of [vld_unload.cpp]: call the export when the module
    is found, [return -1] otherwise. *)
Definition VLDGetLeaksCount (p : process) : Z :=
  match GetModuleHandle p with
  | Some vld_module =>
      match GetProcAddress_VLDGetLeaksCount vld_module with
      | Some func => func tt
      | None => UINT (-1)
      end
  | None => UINT (-1)
  end.

(** The detector's own code running a sequence of allocator calls. *)
Definition internal_calls `{Platform} (t : list call) (p : process) : process :=
  match run t (vld p) with
  | Some (s, _) => Process (load_depth p) s (tracked p) (reports p)
  | None => p
  end.

Inductive lifecycle_event := Load | Unload | HostAlloc | HostFree.

Definition step (p : process) (e : lifecycle_event) : process :=
  match e with
  | Load => onLoad p
  | Unload => onUnload p
  | HostAlloc => host_alloc p
  | HostFree => host_free p
  end.

Definition exec (t : list lifecycle_event) (p : process) : process :=
  fold_left step t p.

Definition is_host_event (e : lifecycle_event) : bool :=
  match e with
  | Load | Unload => false
  | HostAlloc | HostFree => true
  end.

(** The sequence of events never takes the load depth [d] down to 0. *)
Fixpoint stays_loaded (d : nat) (t : list lifecycle_event) : bool :=
  match t with
  | [] => true
  | Load :: t' => stays_loaded (S d) t'
  | Unload :: t' => (2 <=? d)%nat && stays_loaded (pred d) t'
  | _ :: t' => stays_loaded d t'
  end.

(** The test libraries [vld_dll1.dll] and [vld_dll2.dll] load the detector
    and leak one block each. *)
Definition LoadLibrary_test_dll (p : process) : process := host_alloc (onLoad p).
Definition FreeLibrary (p : process) : process := onUnload p.

(** [TestUnloadDlls2]: the four pairs handed to [ExpectLeakCount]. *)
Definition TestUnloadDlls2 (p0 : process) : list (Z * Z) :=
  let p1 := LoadLibrary_test_dll p0 in
  let w := INT (VLDGetLeaksCount p1) in
  let p2 := LoadLibrary_test_dll p1 in
  let x := INT (VLDGetLeaksCount p2) in
  let p3 := FreeLibrary p2 in
  let y := INT (VLDGetLeaksCount p3) in
  let p4 := FreeLibrary p3 in
  let z := INT (VLDGetLeaksCount p4) in
  [(1, w); (2, x); (2, y); (-1, z)].

(** [TestUnloadDlls1]: two complete load cycles in a row. *)
Definition TestUnloadDlls1 (p0 : process) : list (Z * Z) :=
  let p1 := LoadLibrary_test_dll p0 in
  let w := INT (VLDGetLeaksCount p1) in
  let p2 := FreeLibrary p1 in
  let x := INT (VLDGetLeaksCount p2) in
  let p3 := LoadLibrary_test_dll p2 in
  let y := INT (VLDGetLeaksCount p3) in
  let p4 := FreeLibrary p3 in
  let z := INT (VLDGetLeaksCount p4) in
  [(1, w); (-1, x); (1, y); (-1, z)].

End LoadCycle.

Import VldHeap.

(** * Facts about the allocator *)

Section MonadSteps.

Lemma bind_Done {A B} (m : M A) (k : A → M B) s a s1 tr1 b s2 tr2 :
  m s = Done a s1 tr1 → k a s1 = Done b s2 tr2 →
  (m ≫= k) s = Done b s2 (tr1 ++ tr2).
Proof. intros Hm Hk. unfold mbind, M_bind, bind. by rewrite Hm, Hk. Qed.

Lemma bind_Fault {A B} (m : M A) (k : A → M B) s a s1 tr1 :
  m s = Done a s1 tr1 → k a s1 = Fault → (m ≫= k) s = Fault.
Proof. intros Hm Hk. unfold mbind, M_bind, bind. by rewrite Hm, Hk. Qed.

Lemma bind_fault {A B} (m : M A) (k : A → M B) s :
  m s = Fault → (m ≫= k) s = Fault.
Proof. intros Hm. unfold mbind, M_bind, bind. by rewrite Hm. Qed.

Lemma bind_assert {B} (b : bool) (k : unit → M B) s :
  (assert b ≫= k) s = if b then k tt s else AssertFail.
Proof.
  unfold mbind, M_bind, bind, assert. destruct b; [|done].
  by destruct (k tt s).
Qed.

Lemma store_alter a f v s h :
  heap s !! a = Some h →
  store a f v s =
  Done tt (State (g_vldBlockList s) (serialnumber s) (alter (set_field f v) a (heap s)))
       [EvField a f true].
Proof.
  intros Hh. unfold store. rewrite Hh. do 2 f_equal.
  apply map_eq; intros i. destruct (decide (a = i)) as [->|Hne].
  - by rewrite lookup_insert_eq, lookup_alter_eq, Hh.
  - by rewrite lookup_insert_ne, lookup_alter_ne.
Qed.

Lemma load_done a f s h :
  heap s !! a = Some h → load a f s = Done (get_field f h) s [EvField a f false].
Proof. intros Hh. unfold load. by rewrite Hh. Qed.

Lemma store_fault a f v s : heap s !! a = None → store a f v s = Fault.
Proof. intros Hh. unfold store. by rewrite Hh. Qed.

Lemma set_next_id h : set_next (next h) h = h.
Proof. by destruct h. Qed.

Lemma set_prev_id h : set_prev (prev h) h = h.
Proof. by destruct h. Qed.

End MonadSteps.

Section ClosedForms.
Context `{Platform}.

Lemma scoped_lock_done {A} (body : M A) s r s1 tr :
  body s = Done r s1 tr →
  scoped_lock body s = Done r s1 (EvLock :: tr ++ [EvUnlock]).
Proof.
  intros Hb. unfold scoped_lock.
  eapply (bind_Done _ _ s tt s [EvLock]); [reflexivity|].
  eapply bind_Done; [exact Hb|]. reflexivity.
Qed.

Lemma scoped_lock_fault {A} (body : M A) s :
  body s = Fault → scoped_lock body s = Fault.
Proof.
  intros Hb. unfold scoped_lock.
  eapply (bind_Fault _ _ s tt s [EvLock]); [reflexivity|].
  by apply bind_fault.
Qed.

(** One statement of a helper that returns: a store to or a load from a
    header that is in the heap, or a statement on globals alone. *)
Ltac store_step lookup_tac :=
  eapply bind_Done; [eapply store_alter; simpl; lookup_tac|cbv beta; simpl].
Ltac load_step lookup_tac :=
  eapply bind_Done; [eapply load_done; simpl; lookup_tac|cbv beta; simpl].
Ltac global_step :=
  eapply bind_Done; [reflexivity|cbv beta; simpl].
Ltac store_new := store_step ltac:(apply lookup_insert_eq); rewrite alter_insert_eq.
Ltac load_new := load_step ltac:(apply lookup_insert_eq).

(** The same statements on the way to a fault. *)
Ltac store_new_then_fault :=
  eapply bind_Fault; [eapply store_alter; simpl; apply lookup_insert_eq|];
  simpl; rewrite alter_insert_eq.
Ltac load_new_then_fault :=
  eapply bind_Fault; [eapply load_done; simpl; apply lookup_insert_eq|]; simpl.
Ltac global_then_fault := eapply bind_Fault; [reflexivity|]; simpl.

Lemma vldnew_eq os junk sz f ln s :
  vldnew os junk sz f ln s =
  if args_ok sz f ln then
    if os =? nullptr then Done nullptr s [EvRtlAllocateHeap (request sz) nullptr]
    else if can_link os s then
      Done (VLDBLOCKDATA os) (linked os sz f ln s)
           (new_events os sz (g_vldBlockList s))
    else Fault
  else AssertFail.
Proof.
  unfold vldnew, args_ok. rewrite bind_assert.
  destruct (0 <? sz); [|reflexivity]. rewrite bind_assert.
  destruct (f =? nullptr); [reflexivity|]. rewrite bind_assert.
  destruct (0 <? ln); [|reflexivity]. simpl.
  destruct (os =? nullptr) eqn:Hos.
  { etransitivity.
    - eapply bind_Done; [unfold RtlAllocateHeap; rewrite Hos; reflexivity|].
      reflexivity.
    - reflexivity. }
  destruct s as [hd sn m]. unfold can_link, linked, new_events, alter_nz. simpl.
  destruct (hd =? nullptr) eqn:Hhd; simpl.
  - etransitivity.
    + eapply bind_Done; [unfold RtlAllocateHeap; rewrite Hos; reflexivity|].
      cbv beta. rewrite Hos.
      store_new. store_new. global_step. store_new. store_new.
      eapply scoped_lock_done.
      global_step. store_new. load_new. rewrite Hhd. simpl.
      global_step. store_new. global_step. reflexivity.
    + simpl. by destruct junk.
  - destruct (hd =? os) eqn:Hal; simpl.
    + apply Z.eqb_eq in Hal. subst hd. etransitivity.
      * eapply bind_Done; [unfold RtlAllocateHeap; rewrite Hos; reflexivity|].
        cbv beta. rewrite Hos.
        store_new. store_new. global_step. store_new. store_new.
        eapply scoped_lock_done.
        global_step. store_new. load_new. rewrite Hhd. simpl.
        eapply bind_Done.
        { load_new. eapply store_alter. simpl. apply lookup_insert_eq. }
        simpl. rewrite alter_insert_eq.
        store_new. global_step. reflexivity.
      * simpl. rewrite insert_alter_eq. by destruct junk.
    + apply Z.eqb_neq in Hal.
      destruct (m !! hd) as [hh|] eqn:Hm.
      * rewrite bool_decide_eq_true_2 by eauto. etransitivity.
        -- eapply bind_Done; [unfold RtlAllocateHeap; rewrite Hos; reflexivity|].
           cbv beta. rewrite Hos.
           store_new. store_new. global_step. store_new. store_new.
           eapply scoped_lock_done.
           global_step. store_new. load_new. rewrite Hhd. simpl.
           eapply bind_Done.
           { load_new. eapply store_alter. simpl.
             rewrite lookup_insert_ne by done. exact Hm. }
           simpl. rewrite alter_insert_ne by done.
           store_new. global_step. reflexivity.
        -- simpl. by destruct junk.
      * rewrite bool_decide_eq_false_2 by (intros [? ?]; congruence).
        eapply bind_Fault; [unfold RtlAllocateHeap; rewrite Hos; reflexivity|].
        cbv beta. rewrite Hos.
        store_new_then_fault. store_new_then_fault. global_then_fault.
        store_new_then_fault. store_new_then_fault.
        apply scoped_lock_fault.
        global_then_fault. store_new_then_fault. load_new_then_fault.
        rewrite Hhd. simpl. apply bind_fault. load_new_then_fault.
        apply store_fault. simpl. by rewrite lookup_insert_ne.
Qed.

Lemma lookup_alter_nz_header f a (m : gmap Z vldblockheader_t) header h :
  m !! header = Some h → (a = header → f h = h) →
  alter_nz f a m !! header = Some h.
Proof.
  intros Hm Hf. unfold alter_nz. destruct (a =? nullptr); [done|].
  destruct (decide (a = header)) as [->|Hne].
  - by rewrite lookup_alter_eq, Hm; simpl; rewrite Hf.
  - by rewrite lookup_alter_ne.
Qed.

Lemma vlddelete_eq block s :
  vlddelete block s =
  if block =? nullptr then Done tt s []
  else match heap s !! VLDBLOCKHEADER block with
       | None => Fault
       | Some h =>
           if can_unlink h s then
             Done tt (unlinked (VLDBLOCKHEADER block) h s)
                  (delete_events (VLDBLOCKHEADER block) h)
           else Fault
       end.
Proof.
  unfold vlddelete. destruct (block =? nullptr); [reflexivity|].
  cbv zeta. set (header := VLDBLOCKHEADER block).
  destruct s as [hd sn m]. simpl.
  destruct (m !! header) as [h|] eqn:Hh.
  2:{ apply scoped_lock_fault. apply bind_fault. unfold load. simpl. by rewrite Hh. }
  unfold can_unlink, unlinked, delete_events. simpl.
  (* first statement: detach from the predecessor or move the list head *)
  set (m1 := alter_nz (set_next (next h)) (prev h) m).
  set (hd1 := if prev h =? nullptr then next h else hd).
  set (tr1 := if prev h =? nullptr then [EvField header Fnext false; EvHead true]
              else [EvField header Fprev false; EvField header Fnext false;
                    EvField (prev h) Fnext true]).
  assert (Hh1 : m1 !! header = Some h).
  { apply lookup_alter_nz_header; [done|]. intros _. apply set_next_id. }
  destruct ((prev h =? nullptr) || bool_decide (is_Some (m !! prev h))) eqn:Hp; simpl.
  2:{ apply orb_false_iff in Hp as [Hp0 Hp1]. apply bool_decide_eq_false in Hp1.
      apply scoped_lock_fault.
      eapply bind_Fault; [by eapply load_done|]. simpl. rewrite Hp0. simpl.
      apply bind_fault.
      eapply bind_Fault; [by eapply load_done|].
      eapply bind_Fault; [by eapply load_done|].
      apply store_fault. simpl. destruct (m !! prev h); [|done]. by destruct Hp1. }
  assert (Hstep1 :
    (if negb (prev h =? nullptr)
     then p' ← load header Fprev; n ← load header Fnext; store p' Fnext n
     else n ← load header Fnext; write_g_vldBlockList n) (State hd sn m) =
    Done tt (State hd1 sn m1) tr1).
  { unfold hd1, m1, tr1, alter_nz.
    destruct (prev h =? nullptr) eqn:Hp0; simpl.
    - etransitivity; [eapply bind_Done; [by eapply load_done|reflexivity]|done].
    - simpl in Hp. apply bool_decide_eq_true in Hp as [hp Hhp].
      etransitivity.
      + eapply bind_Done; [by eapply load_done|]. 
        eapply bind_Done; [by eapply load_done|].
        eapply store_alter. exact Hhp.
      + done. }
  set (m2 := alter_nz (set_prev (prev h)) (next h) m1).
  set (tr2 := if next h =? nullptr then []
              else [EvField header Fnext false; EvField header Fprev false;
                    EvField (next h) Fprev true]).
  assert (Hh2 : m2 !! header = Some h).
  { apply lookup_alter_nz_header; [done|]. intros _. apply set_prev_id. }
  assert (Hn1 : is_Some (m1 !! next h) ↔ is_Some (m !! next h)).
  { unfold m1, alter_nz. destruct (prev h =? nullptr); [done|].
    apply lookup_alter_is_Some. }
  destruct ((next h =? nullptr) || bool_decide (is_Some (m !! next h))) eqn:Hn; simpl.
  2:{ apply orb_false_iff in Hn as [Hn0 Hn1']. apply bool_decide_eq_false in Hn1'.
      apply scoped_lock_fault.
      eapply bind_Fault; [by eapply load_done|].
      eapply bind_Fault; [exact Hstep1|].
      eapply bind_Fault; [by eapply load_done|]. simpl. rewrite Hn0. simpl.
      apply bind_fault.
      eapply bind_Fault; [by eapply load_done|].
      eapply bind_Fault; [by eapply load_done|].
      apply store_fault. simpl. destruct (m1 !! next h) eqn:E; [|done].
      destruct Hn1'. apply Hn1. eauto. }
  assert (Hstep2 :
    (if negb (next h =? nullptr)
     then n' ← load header Fnext; p' ← load header Fprev; store n' Fprev p'
     else ret ()) (State hd1 sn m1) =
    Done tt (State hd1 sn m2) tr2).
  { unfold m2, tr2, alter_nz.
    destruct (next h =? nullptr) eqn:Hn0; simpl; [reflexivity|].
    simpl in Hn. apply bool_decide_eq_true in Hn. apply Hn1 in Hn as [hn Hhn].
    etransitivity.
    - eapply bind_Done; [by eapply load_done|]. 
      eapply bind_Done; [by eapply load_done|].
      eapply store_alter. exact Hhn.
    - done. }
  etransitivity.
  - eapply scoped_lock_done.
    eapply bind_Done; [by eapply load_done|].
    eapply bind_Done; [exact Hstep1|].
    eapply bind_Done; [by eapply load_done|].
    eapply bind_Done; [exact Hstep2|].
    eapply bind_Done; [unfold RtlFreeHeap; simpl; rewrite Hh2; reflexivity|].
    reflexivity.
  - unfold tr1, tr2. simpl. f_equal.
    by destruct (prev h =? nullptr), (next h =? nullptr).
Qed.

End ClosedForms.

Section Registry.
Context `{Platform}.
Implicit Types (m : gmap Z vldblockheader_t) (l : list Z).

Lemma dll_ext m m' pp cur l :
  (∀ a, a ∈ l → m' !! a = m !! a) → dll m pp cur l → dll m' pp cur l.
Proof.
  revert pp cur. induction l as [|a l IH]; intros pp cur Hag; simpl; [done|].
  intros (-> & Hnz & h & Hh & Hp & Hl). repeat split; [done|].
  exists h. rewrite Hag by apply list_elem_of_here. repeat split; [done..|].
  apply IH; [|done]. intros b Hb. apply Hag. by apply list_elem_of_further.
Qed.

Lemma dll_nonnull m pp cur l : dll m pp cur l → nullptr ∉ l.
Proof.
  revert pp cur. induction l as [|a l IH]; intros pp cur; simpl.
  - intros _. apply not_elem_of_nil.
  - intros (-> & Hnz & h & _ & _ & Hl). apply not_elem_of_cons. split; [done|].
    by eapply IH.
Qed.

Lemma dll_head m pp cur l : dll m pp cur l → cur = hd nullptr l.
Proof. destruct l; simpl; [done|]. by intros [-> _]. Qed.

Lemma dll_middle m pp cur l1 x l2 h :
  dll m pp cur (l1 ++ x :: l2) → m !! x = Some h →
  prev h = default pp (last l1) ∧ next h = hd nullptr l2.
Proof.
  revert pp cur. induction l1 as [|y l1 IH]; intros pp cur; simpl.
  - intros (-> & _ & h' & Hh' & Hp & Hl) Hh. simplify_eq. split; [done|].
    by eapply dll_head.
  - intros (-> & _ & hy & _ & _ & Hl) Hh.
    destruct (IH _ _ Hl Hh) as [-> ->]. split; [|done].
    rewrite last_cons. by destruct (last l1).
Qed.

Lemma lookup_alter_nz f a m b :
  b ≠ nullptr →
  alter_nz f a m !! b = (if decide (b = a) then f else id) <$> m !! b.
Proof.
  intros Hb. unfold alter_nz. destruct (a =? nullptr) eqn:Ha.
  - apply Z.eqb_eq in Ha. rewrite decide_False by congruence.
    by destruct (m !! b).
  - rewrite lookup_alter. destruct (decide (a = b)) as [->|Hne].
    + by rewrite decide_True.
    + rewrite decide_False by congruence. by destruct (m !! b).
Qed.

Lemma lookup_unlinked x h m b :
  b ≠ x → b ≠ nullptr →
  delete x (alter_nz (set_prev (prev h)) (next h)
              (alter_nz (set_next (next h)) (prev h) m)) !! b
  = patch h b <$> m !! b.
Proof.
  intros Hx Hb. rewrite lookup_delete_ne by done.
  rewrite !lookup_alter_nz by done. unfold patch.
  destruct (m !! b) as [hb|]; [|done]. simpl.
  by repeat case_decide.
Qed.

Lemma dll_unlink m m' pp cur l1 x l2 h :
  dll m pp cur (l1 ++ x :: l2) →
  NoDup (l1 ++ x :: l2) →
  pp ∉ l1 ++ x :: l2 →
  m !! x = Some h →
  (∀ b, b ∈ l1 ++ l2 → m' !! b = patch h b <$> m !! b) →
  dll m' pp (if l1 is [] then next h else cur) (l1 ++ l2).
Proof.
  revert pp cur. induction l1 as [|y l1 IH]; intros pp cur Hdll Hnd Hpp Hh Hm'.
  - simpl in *. destruct Hdll as (-> & Hx & h' & Hh' & Hp & Hl). simplify_eq.
    apply NoDup_cons in Hnd as [Hx2 Hnd].
    destruct l2 as [|b l2]; simpl in *; [done|].
    destruct Hl as (Hn & Hb & hb & Hhb & Hpb & Hl).
    apply NoDup_cons in Hnd as [Hb2 Hnd].
    apply not_elem_of_cons in Hpp as [_ Hpp].
    apply not_elem_of_cons in Hpp as [Hppb Hpp].
    repeat split; [done..|].
    exists (set_prev (prev h') hb). repeat split.
    + rewrite Hm' by apply list_elem_of_here. rewrite Hhb. simpl. unfold patch.
      rewrite (decide_True (P := b = next h')) by done.
      by rewrite (decide_False (P := b = prev h')) by done.
    + simpl. apply (dll_ext m); [|done].
      intros c Hc. rewrite Hm' by by apply list_elem_of_further.
      destruct (m !! c) as [hc|]; [|done]. simpl. unfold patch.
      rewrite (decide_False (P := c = prev h')) by (by intros ->).
      rewrite (decide_False (P := c = next h')); [done|].
      intros ->. by rewrite Hn in Hc.
  - simpl in Hdll. destruct Hdll as (-> & Hy & hy & Hhy & Hpy & Hl).
    change ((y :: l1) ++ x :: l2) with (y :: (l1 ++ x :: l2)) in *.
    apply NoDup_cons in Hnd as [Hy2 Hnd].
    apply not_elem_of_cons in Hpp as [Hppy Hpp].
    destruct (dll_middle _ _ _ _ _ _ _ Hl Hh) as [Hprev Hnext].
    pose proof (dll_nonnull _ _ _ _ Hl) as Hnn.
    assert (Hynext : y ≠ next h).
    { rewrite Hnext. destruct l2 as [|b l2]; simpl; [done|].
      intros ->. apply Hy2. apply elem_of_app. right.
      apply list_elem_of_further, list_elem_of_here. }
    simpl. repeat split; [done|].
    exists (patch h y hy). repeat split.
    + rewrite Hm' by apply list_elem_of_here. by rewrite Hhy.
    + unfold patch. rewrite (decide_False (P := y = next h)) by done.
      by case_decide.
    + assert (Hnx : next (patch h y hy) = if l1 is [] then next h else next hy).
      { unfold patch. rewrite (decide_False (P := y = next h)) by done.
        destruct l1 as [|z l1].
        - simpl in Hprev. by rewrite decide_True.
        - rewrite decide_False; [done|]. intros ->.
          apply Hy2. apply elem_of_app. left.
          destruct (last (z :: l1)) as [w|] eqn:Hw; simpl in Hprev.
          + rewrite Hprev. by eapply last_Some_elem_of.
          + by apply last_None in Hw. }
      rewrite Hnx. apply IH; try done.
      intros b Hb. apply Hm'. by apply list_elem_of_further.
Qed.


Lemma registry_inv_init : registry_inv init_state [].
Proof.
  repeat split; [apply NoDup_nil_2|..]; simpl.
  - rewrite lookup_empty. by intros [? ?].
  - by intros ?%elem_of_nil.
Qed.

Lemma registry_inv_can_link s l os :
  registry_inv s l → can_link os s = true.
Proof.
  intros (Hdll & _ & Hdom). unfold can_link.
  destruct l as [|a l]; simpl in Hdll.
  - by rewrite Hdll.
  - destruct Hdll as (-> & _ & h & Hh & _). rewrite bool_decide_eq_true_2 by eauto.
    apply orb_true_r.
Qed.

Lemma registry_inv_linked s l os sz f ln :
  registry_inv s l → os ≠ nullptr → os ∉ l →
  registry_inv (linked os sz f ln s) (os :: l).
Proof.
  intros (Hdll & Hnd & Hdom) Hos Hfresh. unfold linked. repeat split; simpl.
  - done.
  - eexists. rewrite lookup_insert_eq. repeat split.
    simpl. destruct l as [|a l]; simpl in *.
    + done.
    + destruct Hdll as (Ha & Hnz & h & Hh & Hp & Hl). rewrite Ha.
      apply not_elem_of_cons in Hfresh as [Hosa Hfresh].
      apply NoDup_cons in Hnd as [Ha2 Hnd].
      repeat split; [done|]. exists (set_prev os h). repeat split.
      * rewrite lookup_insert_ne by done. rewrite lookup_alter_nz by done.
        rewrite decide_True by done. by rewrite Hh.
      * simpl. apply (dll_ext (heap s)); [|done]. intros b Hb.
        rewrite lookup_insert_ne by (by intros ->).
        rewrite lookup_alter_nz.
        -- rewrite decide_False by (by intros ->). by destruct (heap s !! b).
        -- intros ->. by apply (dll_nonnull _ _ _ _ Hl).
  - by apply NoDup_cons.
  - intros Ha. apply lookup_insert_is_Some in Ha as [->|[Hne Ha]].
    + apply list_elem_of_here.
    + apply list_elem_of_further, Hdom. unfold alter_nz in Ha.
      destruct (g_vldBlockList s =? nullptr); [done|].
      by apply lookup_alter_is_Some in Ha.
  - intros [->|Ha]%elem_of_cons; apply lookup_insert_is_Some.
    + by left.
    + right. split; [by intros ->|]. apply Hdom in Ha. unfold alter_nz.
      destruct (g_vldBlockList s =? nullptr); [done|].
      by apply lookup_alter_is_Some.
Qed.

Lemma filter_ne_split (l1 l2 : list Z) x :
  NoDup (l1 ++ x :: l2) → filter (λ p, p ≠ x) (l1 ++ x :: l2) = l1 ++ l2.
Proof.
  intros Hnd. apply NoDup_app in Hnd as (_ & Hx1 & Hnd2).
  apply NoDup_cons in Hnd2 as [Hx2 _].
  assert (Hkeep : ∀ l : list Z, x ∉ l → filter (λ p, p ≠ x) l = l).
  { induction l as [|y l IH]; [done|]. intros [Hy Hl]%not_elem_of_cons.
    rewrite filter_cons_True by done. by rewrite IH. }
  rewrite filter_app, filter_cons_False by (by intros ?).
  rewrite !Hkeep; [done|done|].
  intros Hx. by apply (Hx1 x Hx), list_elem_of_here.
Qed.

Lemma registry_inv_unlinked s l x :
  registry_inv s l → x ∈ l →
  ∃ h, heap s !! x = Some h ∧ can_unlink h s = true ∧
       registry_inv (unlinked x h s) (filter (λ p, p ≠ x) l).
Proof.
  intros (Hdll & Hnd & Hdom) Hx.
  destruct (list_elem_of_split _ _ Hx) as (l1 & l2 & ->).
  destruct (proj2 (Hdom x) Hx) as [h Hh]. exists h. split; [done|].
  destruct (dll_middle _ _ _ _ _ _ _ Hdll Hh) as [Hprev Hnext].
  pose proof (dll_nonnull _ _ _ _ Hdll) as Hnn.
  assert (Hpin : prev h = nullptr ∧ l1 = [] ∨ prev h ∈ l1).
  { destruct (last l1) as [w|] eqn:Hw; simpl in Hprev.
    - right. rewrite Hprev. by eapply last_Some_elem_of.
    - left. by apply last_None in Hw. }
  assert (Hnin : next h = nullptr ∨ next h ∈ l2).
  { destruct l2 as [|b l2]; simpl in Hnext; [by left|].
    right. rewrite Hnext. apply list_elem_of_here. }
  split.
  { unfold can_unlink. apply andb_true_iff. split; apply orb_true_iff.
    - destruct Hpin as [[-> _]|Hp]; [by left|]. right.
      apply bool_decide_eq_true, Hdom, elem_of_app. by left.
    - destruct Hnin as [->|Hn]; [by left|]. right.
      apply bool_decide_eq_true, Hdom, elem_of_app. right.
      by apply list_elem_of_further. }
  rewrite filter_ne_split by done. unfold unlinked. repeat split; simpl.
  - assert (Hcur : (if prev h =? nullptr then next h else g_vldBlockList s)
                   = if l1 is [] then next h else g_vldBlockList s).
    { destruct Hpin as [[-> ->]|Hp]; [done|].
      destruct l1 as [|y l1]; [by apply elem_of_nil in Hp|].
      destruct (prev h =? nullptr) eqn:E; [|done].
      apply Z.eqb_eq in E. rewrite E in Hp. destruct Hnn.
      apply elem_of_app. by left. }
    rewrite Hcur. eapply dll_unlink; try done.
    intros b Hb. apply lookup_unlinked.
    + intros ->. apply NoDup_app in Hnd as (_ & Hx1 & Hnd2).
      apply NoDup_cons in Hnd2 as [Hx2 _].
      apply elem_of_app in Hb as [Hb|Hb]; [|done].
      by apply (Hx1 x Hb), list_elem_of_here.
    + intros ->. apply Hnn. apply elem_of_app in Hb as [Hb|Hb]; apply elem_of_app.
      * by left.
      * right. by apply list_elem_of_further.
  - apply NoDup_app in Hnd as (Hnd1 & Hx1 & Hnd2).
    apply NoDup_cons in Hnd2 as [Hx2 Hnd2]. apply NoDup_app. repeat split; [done| |done].
    intros b Hb Hb2. by apply (Hx1 b Hb), list_elem_of_further.
  - intros Ha. apply lookup_delete_is_Some in Ha as [Hne Ha].
    assert (is_Some (heap s !! a)) as Ha'.
    { unfold alter_nz in Ha.
      destruct (next h =? nullptr), (prev h =? nullptr);
        repeat (apply lookup_alter_is_Some in Ha); done. }
    apply Hdom in Ha'. apply elem_of_app in Ha' as [?|[?|?]%elem_of_cons];
      apply elem_of_app; [by left|congruence|by right].
  - intros Ha. apply lookup_delete_is_Some.
    assert (a ∈ l1 ++ x :: l2) as Ha'.
    { apply elem_of_app in Ha as [?|?]; apply elem_of_app; [by left|].
      right. by apply list_elem_of_further. }
    split.
    + intros ->. apply NoDup_app in Hnd as (_ & Hx1 & Hnd2).
      apply NoDup_cons in Hnd2 as [Hx2 _].
      apply elem_of_app in Ha as [Hb|Hb]; [|done].
      by apply (Hx1 a Hb), list_elem_of_here.
    + apply Hdom in Ha'. unfold alter_nz.
      destruct (next h =? nullptr), (prev h =? nullptr);
        repeat (apply lookup_alter_is_Some); done.
Qed.

End Registry.

Section Traces.
Context `{Platform}.

Lemma header_of_data a : VLDBLOCKHEADER (VLDBLOCKDATA a) = a.
Proof. unfold VLDBLOCKHEADER, VLDBLOCKDATA. lia. Qed.

Lemma data_of_header p : VLDBLOCKDATA (VLDBLOCKHEADER p) = p.
Proof. unfold VLDBLOCKHEADER, VLDBLOCKDATA. lia. Qed.

Lemma is_live_elem_of p live : is_live p live = true ↔ p ∈ live.
Proof.
  unfold is_live. rewrite existsb_exists. split.
  - intros (q & Hq & ->%Z.eqb_eq). by apply list_elem_of_In.
  - intros Hp. exists p. split; [by apply list_elem_of_In|apply Z.eqb_refl].
Qed.

Lemma header_elem_of p (live : list Z) :
  VLDBLOCKHEADER p ∈ VLDBLOCKHEADER <$> live ↔ p ∈ live.
Proof.
  rewrite list_elem_of_fmap. split.
  - intros (q & Hq & Hin). unfold VLDBLOCKHEADER in Hq.
    by replace p with q by lia.
  - intros Hp. by exists p.
Qed.

Lemma header_filter b (live : list Z) :
  VLDBLOCKHEADER <$> filter (λ p, p ≠ b) live
  = filter (λ a, a ≠ VLDBLOCKHEADER b) (VLDBLOCKHEADER <$> live).
Proof.
  induction live as [|p live IH]; [done|].
  rewrite fmap_cons, !filter_cons, <- IH.
  destruct (decide (p ≠ b)) as [Hne|Heq].
  - rewrite decide_True; [done|]. unfold VLDBLOCKHEADER. lia.
  - rewrite decide_False; [done|]. unfold VLDBLOCKHEADER. lia.
Qed.

Lemma record_allocation_linked os sz f ln s :
  0 < os →
  record_allocation (VLDBLOCKDATA os) (linked os sz f ln s)
  = [(VLDBLOCKDATA os, Header (g_vldBlockList s) nullptr f ln (serialnumber s) sz)].
Proof.
  intros Hos. unfold record_allocation.
  assert ((VLDBLOCKDATA os =? nullptr) = false) as ->.
  { apply Z.eqb_neq. pose proof header_size_pos. unfold VLDBLOCKDATA, nullptr. lia. }
  rewrite header_of_data. unfold linked. simpl. by rewrite lookup_insert_eq.
Qed.

(** A valid sequence of calls runs to completion; the registry then holds
    exactly the outstanding blocks, newest first, and the serial numbers
    handed out are consecutive values of the wrapping counter. *)
Lemma run_valid t : ∀ live s,
  registry_inv s (VLDBLOCKHEADER <$> live) →
  valid_trace live t = true →
  ∃ s' log,
    run t s = Some (s', log) ∧
    registry_inv s' (VLDBLOCKHEADER <$> live_after live t) ∧
    serials log = serial_run (serialnumber s) (successes t) ∧
    serialnumber s' = serial_after (serialnumber s) (successes t).
Proof.
  induction t as [|c t IH]; intros live s Hinv Hvalid.
  { exists s, []. by split_and!. }
  simpl in Hvalid. apply andb_true_iff in Hvalid as [Hc Ht].
  destruct c as [os junk sz f ln|b]; simpl in Hc; cbn [live_step] in Ht.
  - apply andb_true_iff in Hc as [Hargs Hos].
    cbn [run]. rewrite vldnew_eq. unfold args_ok. rewrite Hargs.
    unfold successes, live_after. cbn [fold_left List.filter successful live_step].
    destruct (os =? nullptr) eqn:Hnull; simpl in Hos |- *.
    + destruct (IH live s Hinv Ht) as (s' & log & Hrun & Hinv' & Hser & Hsn).
      exists s', log. rewrite Hrun. by split_and!.
    + apply andb_true_iff in Hos as [Hpos Hfresh].
      apply Z.ltb_lt in Hpos. apply negb_true_iff in Hfresh.
      rewrite (registry_inv_can_link _ _ os Hinv).
      assert (Hinv1 : registry_inv (linked os sz f ln s)
                        (VLDBLOCKHEADER <$> (VLDBLOCKDATA os :: live))).
      { rewrite fmap_cons, header_of_data. apply registry_inv_linked; [done|..].
        - unfold nullptr. lia.
        - rewrite <- (header_of_data os) at 1. rewrite header_elem_of.
          intros Hin%is_live_elem_of. congruence. }
      destruct (IH _ _ Hinv1 Ht) as (s' & log & Hrun & Hinv' & Hser & Hsn).
      rewrite Hrun, record_allocation_linked by done.
      eexists _, _. split; [reflexivity|]. split_and!; [done|..].
      * simpl. by rewrite Hser.
      * by rewrite Hsn.
  - cbn [run]. rewrite vlddelete_eq.
    unfold successes, live_after. cbn [fold_left List.filter successful live_step].
    destruct (b =? nullptr) eqn:Hnull; simpl in Hc.
    + destruct (IH live s Hinv Ht) as (s' & log & Hrun & Hinv' & Hser & Hsn).
      exists s', log. by split_and!.
    + apply is_live_elem_of, header_elem_of in Hc.
      destruct (registry_inv_unlinked _ _ _ Hinv Hc) as (h & Hh & Hcan & Hinv1).
      rewrite Hh, Hcan. rewrite <- header_filter in Hinv1.
      destruct (IH _ _ Hinv1 Ht) as (s' & log & Hrun & Hinv' & Hser & Hsn).
      exists s', log. by split_and!.
Qed.

End Traces.

Section RegistryShape.
Context `{Platform}.
Implicit Types (m : gmap Z vldblockheader_t) (l : list Z).

Lemma dll_walk m pp cur l :
  dll m pp cur l → walk (length l) m cur = Some l.
Proof.
  revert pp cur. induction l as [|a l IH]; intros pp cur; simpl.
  - by intros ->.
  - intros (-> & Hnz & h & Hh & _ & Hl).
    apply Z.eqb_neq in Hnz. rewrite Hnz, Hh.
    by rewrite (IH _ _ Hl).
Qed.

Lemma dll_next_prev m pp cur l b hb :
  dll m pp cur l → b ∈ l → m !! b = Some hb → next hb ≠ nullptr →
  ∃ hn, m !! next hb = Some hn ∧ prev hn = b.
Proof.
  revert pp cur. induction l as [|a l IH]; intros pp cur; simpl.
  - by intros _ ?%elem_of_nil.
  - intros (-> & _ & h & Hh & _ & Hl) Hb Hhb Hn.
    destruct (decide (b = a)) as [->|Hne].
    + simplify_eq. destruct l as [|c l]; simpl in Hl; [done|].
      destruct Hl as (-> & _ & hc & Hhc & Hpc & _). eauto.
    + apply elem_of_cons in Hb as [?|Hb]; [done|]. by eapply IH.
Qed.

Lemma dll_prev_next m pp cur l b hb :
  dll m pp cur l →
  (pp ≠ nullptr → ∃ hp, m !! pp = Some hp ∧ next hp = cur) →
  b ∈ l → m !! b = Some hb → prev hb ≠ nullptr →
  ∃ hp, m !! prev hb = Some hp ∧ next hp = b.
Proof.
  revert pp cur. induction l as [|a l IH]; intros pp cur; simpl.
  - by intros _ _ ?%elem_of_nil.
  - intros (-> & _ & h & Hh & Hp & Hl) Hpp Hb Hhb Hn.
    destruct (decide (b = a)) as [->|Hne].
    + simplify_eq. by apply Hpp.
    + apply elem_of_cons in Hb as [?|Hb]; [done|].
      eapply (IH a (next h)); eauto.
Qed.

Lemma registry_inv_shape s l :
  registry_inv s l →
  walk (length l) (heap s) (g_vldBlockList s) = Some l ∧
  (∀ h, heap s !! g_vldBlockList s = Some h → prev h = nullptr) ∧
  (∀ b hb, heap s !! b = Some hb → next hb ≠ nullptr →
     ∃ hn, heap s !! next hb = Some hn ∧ prev hn = b) ∧
  (∀ b hb, heap s !! b = Some hb → prev hb ≠ nullptr →
     ∃ hp, heap s !! prev hb = Some hp ∧ next hp = b).
Proof.
  intros (Hdll & Hnd & Hdom). split_and!.
  - by eapply dll_walk.
  - intros h Hh. destruct l as [|a l]; simpl in Hdll.
    + rewrite Hdll in Hh. assert (nullptr ∈ []) as ?%elem_of_nil; [|done].
      apply Hdom. eauto.
    + destruct Hdll as (Hcur & _ & h' & Hh' & Hp & _). rewrite Hcur in Hh.
      by simplify_eq.
  - intros b hb Hhb Hn. eapply dll_next_prev; eauto. apply Hdom. eauto.
  - intros b hb Hhb Hp. eapply dll_prev_next; eauto; [done|]. apply Hdom. eauto.
Qed.

End RegistryShape.

Section Serials.
Context `{Platform}.

Lemma size_modulus_pos : 0 < 2 ^ size_bits.
Proof. pose proof size_bits_pos. apply Z.pow_pos_nonneg; lia. Qed.

Lemma length_serial_run s0 n : length (serial_run s0 n) = n.
Proof. revert s0. induction n as [|n IH]; intros s0; simpl; [done|]. by rewrite IH. Qed.

Lemma lookup_serial_run s0 n k :
  0 ≤ s0 < 2 ^ size_bits → (k < n)%nat →
  serial_run s0 n !! k = Some ((s0 + Z.of_nat k) mod 2 ^ size_bits).
Proof.
  pose proof size_modulus_pos as HM.
  revert s0 k. induction n as [|n IH]; intros s0 k Hs0 Hk; [lia|].
  destruct k as [|k]; simpl.
  - f_equal. rewrite Z.add_0_r. symmetry. by apply Z.mod_small.
  - rewrite IH; [|by apply Z.mod_pos_bound|lia].
    f_equal. rewrite Zplus_mod_idemp_l. f_equal. lia.
Qed.

Lemma serial_after_mod s0 n :
  0 ≤ s0 < 2 ^ size_bits →
  serial_after s0 n = (s0 + Z.of_nat n) mod 2 ^ size_bits.
Proof.
  pose proof size_modulus_pos as HM.
  revert s0. induction n as [|n IH]; intros s0 Hs0.
  - simpl. rewrite Z.add_0_r. symmetry. by apply Z.mod_small.
  - cbn [serial_after]. rewrite IH by by apply Z.mod_pos_bound.
    rewrite Zplus_mod_idemp_l. f_equal. lia.
Qed.

Lemma serial_run_no_wrap n :
  Z.of_nat n ≤ 2 ^ size_bits →
  serial_run 0 n = Z.of_nat <$> seq 0 n.
Proof.
  intros Hn. pose proof size_modulus_pos as HM.
  apply list_eq. intros k. destruct (decide (k < n)%nat) as [Hk|Hk].
  - rewrite lookup_serial_run by lia.
    rewrite list_lookup_fmap, lookup_seq_lt by done. simpl.
    f_equal. apply Z.mod_small. lia.
  - rewrite !lookup_ge_None_2; [done|..].
    + rewrite length_fmap, length_seq. lia.
    + rewrite length_serial_run. lia.
Qed.

Lemma valid_churn n : valid_trace [] (churn n one_more) = true.
Proof.
  induction n as [|n IH]; [reflexivity|].
  cbn [churn valid_trace valid_call live_step].
  change (4096 =? nullptr) with false.
  change (0 <? 1) with true. change (0 <? 4096) with true.
  change (is_live (VLDBLOCKDATA 4096) []) with false. cbn [andb orb negb].
  assert (Hnz : (VLDBLOCKDATA 4096 =? nullptr) = false).
  { apply Z.eqb_neq. pose proof header_size_pos. unfold VLDBLOCKDATA, nullptr. lia. }
  assert (Hlive : is_live (VLDBLOCKDATA 4096) [VLDBLOCKDATA 4096] = true).
  { apply is_live_elem_of, list_elem_of_here. }
  rewrite Hnz, Hlive. cbn [orb andb].
  rewrite filter_cons_False by (by intros ?). exact IH.
Qed.

Lemma successes_churn n : successes (churn n one_more) = S n.
Proof.
  unfold successes. induction n as [|n IH]; [reflexivity|].
  cbn [churn List.filter successful]. change (4096 =? nullptr) with false.
  cbn [negb length]. by rewrite IH.
Qed.

Lemma churn_wraps n :
  Z.of_nat n = 2 ^ size_bits →
  ∃ s log, run (churn n one_more) init_state = Some (s, log) ∧
    serials log !! 0%nat = Some 0 ∧ serials log !! n = Some 0.
Proof.
  intros Hn. pose proof size_modulus_pos as HM.
  destruct (run_valid (churn n one_more) [] init_state) as (s & log & Hrun & _ & Hser & _).
  { apply registry_inv_init. }
  { apply valid_churn. }
  exists s, log. split; [done|]. rewrite Hser, successes_churn.
  change (serialnumber init_state) with 0.
  rewrite !lookup_serial_run by lia. split; [reflexivity|].
  f_equal. rewrite Z.add_0_l, Hn. apply Z_mod_same_full.
Qed.

Lemma not_serials_always_increase n :
  Z.of_nat n = 2 ^ size_bits → ¬ serials_always_increase.
Proof.
  intros Hn Hclaim. destruct (churn_wraps n Hn) as (s & log & Hrun & H0 & Hlast).
  pose proof size_modulus_pos as HM.
  assert (0 < n)%nat as Hlt by lia.
  pose proof (Hclaim _ _ _ (valid_churn n) Hrun _ _ _ _ Hlt H0 Hlast). lia.
Qed.

Lemma not_serials_always_consecutive n :
  Z.of_nat n = 2 ^ size_bits → ¬ serials_always_consecutive.
Proof.
  intros Hn Hclaim. destruct (churn_wraps n Hn) as (s & log & Hrun & H0 & Hlast).
  pose proof size_modulus_pos as HM.
  rewrite (Hclaim _ _ _ (valid_churn n) Hrun), successes_churn in Hlast.
  rewrite list_lookup_fmap, lookup_seq_lt in Hlast by lia.
  simpl in Hlast. injection Hlast as Hlast. lia.
Qed.

End Serials.


Section Stability.
Context `{Platform}.

Lemma same_provenance_patch hx b h : same_provenance h (patch hx b h).
Proof. unfold patch. by repeat case_decide. Qed.

Lemma valid_trace_app live t1 t2 :
  valid_trace live (t1 ++ t2)
  = valid_trace live t1 && valid_trace (live_after live t1) t2.
Proof.
  revert live. induction t1 as [|c t1 IH]; intros live; [done|].
  simpl. rewrite IH. by rewrite andb_assoc.
Qed.

Lemma run_app t1 t2 s s1 log1 :
  run t1 s = Some (s1, log1) →
  run (t1 ++ t2) s =
  match run t2 s1 with
  | Some (s2, log2) => Some (s2, log1 ++ log2)
  | None => None
  end.
Proof.
  revert s log1. induction t1 as [|c t1 IH]; intros s log1 Hrun.
  { simpl in *. simplify_eq. by destruct (run t2 s1) as [[? ?]|]. }
  destruct c as [os j sz f ln|b]; simpl in *.
  - destruct (vldnew os j sz f ln s) as [p s' tr| |]; [|done..].
    destruct (run t1 s') as [[s'' log']|] eqn:Hr; [|done]. simplify_eq.
    rewrite (IH _ _ Hr). destruct (run t2 s1) as [[? ?]|]; [|done].
    by rewrite app_assoc.
  - destruct (vlddelete b s) as [u s' tr| |]; [|done..]. by apply IH.
Qed.

(** Later calls change only the links of an outstanding block: as long as
    the block is not given back, its size, file, line and serial number
    stay what they are. *)
Lemma run_keeps_provenance t : ∀ live s a h,
  registry_inv s (VLDBLOCKHEADER <$> live) →
  valid_trace live t = true →
  heap s !! a = Some h → VLDBLOCKDATA a ∈ live →
  Delete (VLDBLOCKDATA a) ∉ t →
  ∃ s' log h', run t s = Some (s', log) ∧
    heap s' !! a = Some h' ∧ same_provenance h h'.
Proof.
  induction t as [|c t IH]; intros live s a h Hinv Hvalid Hh Ha Hkeep.
  { exists s, [], h. by split_and!. }
  apply not_elem_of_cons in Hkeep as [Hc Hkeep].
  assert (Hnz : a ≠ nullptr).
  { intros ->. destruct Hinv as (Hdll & _ & Hdom).
    apply (dll_nonnull _ _ _ _ Hdll), Hdom. eauto. }
  simpl in Hvalid. apply andb_true_iff in Hvalid as [Hvc Ht].
  destruct c as [os j sz f ln|b]; simpl in Hvc; cbn [live_step] in Ht.
  - apply andb_true_iff in Hvc as [Hargs Hos].
    cbn [run]. rewrite vldnew_eq. unfold args_ok. rewrite Hargs.
    destruct (os =? nullptr) eqn:Hnull; simpl in Hos.
    + destruct (IH live s a h Hinv Ht Hh Ha Hkeep) as (s' & log & h' & Hrun & ?).
      exists s', log, h'. by rewrite Hrun.
    + apply andb_true_iff in Hos as [Hpos Hfresh].
      apply Z.ltb_lt in Hpos. apply negb_true_iff in Hfresh.
      rewrite (registry_inv_can_link _ _ os Hinv).
      assert (Hne : os ≠ a).
      { intros ->. apply is_live_elem_of in Ha. congruence. }
      assert (Hinv1 : registry_inv (linked os sz f ln s)
                        (VLDBLOCKHEADER <$> (VLDBLOCKDATA os :: live))).
      { rewrite fmap_cons, header_of_data. apply registry_inv_linked; [done|..].
        - unfold nullptr. lia.
        - rewrite <- (header_of_data os) at 1. rewrite header_elem_of.
          intros Hin%is_live_elem_of. congruence. }
      assert (Hh1 : ∃ h1, heap (linked os sz f ln s) !! a = Some h1 ∧ same_provenance h h1).
      { unfold linked. simpl. rewrite lookup_insert_ne by done.
        rewrite lookup_alter_nz by done. rewrite Hh. simpl.
        eexists. split; [done|]. by case_decide. }
      destruct Hh1 as (h1 & Hh1 & Hp1).
      destruct (IH _ _ a h1 Hinv1 Ht Hh1) as (s' & log & h' & Hrun & Hh' & Hp');
        [by apply list_elem_of_further|done|].
      rewrite Hrun. eexists _, _, h'. split; [done|]. split; [done|].
      destruct Hp1 as (? & ? & ? & ?), Hp' as (? & ? & ? & ?).
      unfold same_provenance. split_and!; congruence.
  - cbn [run]. rewrite vlddelete_eq.
    destruct (b =? nullptr) eqn:Hnull; simpl in Hvc.
    + destruct (IH live s a h Hinv Ht Hh Ha Hkeep) as (s' & log & h' & Hrun & ?).
      exists s', log, h'. by rewrite Hrun.
    + assert (Hne : a ≠ VLDBLOCKHEADER b).
      { intros ->. apply Hc. by rewrite data_of_header. }
      apply is_live_elem_of, header_elem_of in Hvc.
      destruct (registry_inv_unlinked _ _ _ Hinv Hvc) as (hx & Hhx & Hcan & Hinv1).
      rewrite Hhx, Hcan. rewrite <- header_filter in Hinv1.
      assert (Hh1 : heap (unlinked (VLDBLOCKHEADER b) hx s) !! a = Some (patch hx a h)).
      { unfold unlinked. simpl. rewrite lookup_unlinked by done. by rewrite Hh. }
      destruct (IH _ _ a _ Hinv1 Ht Hh1) as (s' & log & h' & Hrun & Hh' & Hp'); [|done|].
      { apply list_elem_of_filter. split; [|done]. intros <-.
        apply Hne. by rewrite header_of_data. }
      exists s', log, h'. split; [done|]. split; [done|].
      destruct (same_provenance_patch hx a h) as (? & ? & ? & ?).
      destruct Hp' as (? & ? & ? & ?).
      unfold same_provenance. split_and!; congruence.
Qed.

(** An allocated block keeps the size, file and line it was allocated with
    until it is given back, whatever calls precede and follow. *)
Lemma header_fields_stable (before after : list call) os jnk sz f ln :
  valid_trace [] (before ++ New os jnk sz f ln :: after) = true →
  os ≠ nullptr →
  Delete (VLDBLOCKDATA os) ∉ after →
  ∃ s log h,
    run (before ++ New os jnk sz f ln :: after) init_state = Some (s, log) ∧
    heap s !! VLDBLOCKHEADER (VLDBLOCKDATA os) = Some h ∧
    size h = sz ∧ file h = f ∧ line h = ln.
Proof.
  intros Hvalid Hos Hkeep. rewrite valid_trace_app in Hvalid.
  apply andb_true_iff in Hvalid as [Hv1 Hv2].
  destruct (run_valid before [] init_state registry_inv_init Hv1)
    as (s1 & log1 & Hrun1 & Hinv1 & _).
  rewrite (run_app _ _ _ _ _ Hrun1).
  simpl in Hv2. apply andb_true_iff in Hv2 as [Hvc Hv3].
  unfold valid_call in Hvc. apply andb_true_iff in Hvc as [Hargs Hfresh].
  apply Z.eqb_neq in Hos. cbn [live_step] in Hv3. rewrite Hos in Hv3, Hfresh.
  simpl in Hfresh. apply andb_true_iff in Hfresh as [Hpos Hfresh].
  apply Z.ltb_lt in Hpos. apply negb_true_iff in Hfresh.
  cbn [run]. rewrite vldnew_eq. unfold args_ok. rewrite Hargs, Hos.
  rewrite (registry_inv_can_link _ _ os Hinv1).
  assert (Hinv2 : registry_inv (linked os sz f ln s1)
                    (VLDBLOCKHEADER <$> (VLDBLOCKDATA os :: live_after [] before))).
  { rewrite fmap_cons, header_of_data. apply registry_inv_linked; [done|..].
    - unfold nullptr. lia.
    - rewrite <- (header_of_data os) at 1. rewrite header_elem_of.
      intros Hin%is_live_elem_of. congruence. }
  destruct (run_keeps_provenance after _ _ os
              (Header (g_vldBlockList s1) nullptr f ln (serialnumber s1) sz) Hinv2 Hv3)
    as (s & log & h & Hrun & Hh & Hp).
  { unfold linked. simpl. apply lookup_insert_eq. }
  { apply list_elem_of_here. }
  { done. }
  rewrite Hrun. rewrite header_of_data. eexists _, _, h. split; [done|].
  split; [done|]. destruct Hp as (? & ? & ? & ?). by split_and!.
Qed.

End Stability.

(** * The claims about the allocator *)

Section AllocatorClaims.
Context `{Platform}.

(** C2. After every sequence of allocations and deallocations (each
    deallocation applied to [nullptr] or to a block that an allocation
    returned and that is still outstanding), the calls all return and the
    registry holds exactly the outstanding blocks, newest first: each occurs
    once, the walk along [next] ends at [nullptr], the head has a null
    [prev], and [b.next.prev == b] and [b.prev.next == b] wherever the
    neighbour exists. *)
Theorem registry_consistent_after_calls (t : list call) :
  valid_trace [] t = true →
  ∃ s log, run t init_state = Some (s, log) ∧
           registry_consistent s (VLDBLOCKHEADER <$> live_after [] t).
Proof.
  intros Hvalid.
  destruct (run_valid t [] init_state registry_inv_init Hvalid)
    as (s & log & Hrun & Hinv & _).
  exists s, log. split; [done|].
  destruct (registry_inv_shape _ _ Hinv) as (Hwalk & Hhead & Hnp & Hpn).
  destruct Hinv as (_ & Hnd & Hdom). by split_and!.
Qed.

(** C5. For every block that [vldnew] returns, the header found at the
    fixed offset in front of the returned pointer carries the size, file
    and line that were passed to the call. *)
Theorem header_round_trip os junk sz f ln s p s' tr :
  vldnew os junk sz f ln s = Done p s' tr → p ≠ nullptr →
  ∃ h, heap s' !! VLDBLOCKHEADER p = Some h ∧
       size h = sz ∧ file h = f ∧ line h = ln.
Proof.
  rewrite vldnew_eq. intros Hnew Hp.
  destruct (args_ok sz f ln); [|done].
  destruct (os =? nullptr); [by simplify_eq|].
  destruct (can_link os s); [|done]. simplify_eq.
  rewrite header_of_data. unfold linked. simpl.
  eexists. by rewrite lookup_insert_eq.
Qed.

(** C7. When the operating system fails to provide memory, [vldnew]
    returns [nullptr] and leaves the whole state, the registry head and
    every header included, as it was; the only thing it did is the failed
    request. *)
Theorem failed_allocation_changes_nothing junk sz f ln s :
  0 < sz → f ≠ nullptr → 0 < ln →
  vldnew nullptr junk sz f ln s
  = Done nullptr s [EvRtlAllocateHeap (request sz) nullptr].
Proof.
  intros Hsz Hf Hln. rewrite vldnew_eq. unfold args_ok.
  apply Z.ltb_lt in Hsz, Hln. apply Z.eqb_neq in Hf.
  by rewrite Hsz, Hf, Hln.
Qed.

(** C8. [vldnew] stops at an assertion exactly when the size is 0, the
    file is null or the line is not positive; with a positive size, a
    non-null file and a positive line no assertion fails. *)
Theorem vldnew_asserts_its_arguments os junk sz f ln s :
  0 ≤ sz →
  vldnew os junk sz f ln s = AssertFail ↔ sz = 0 ∨ f = nullptr ∨ ln ≤ 0.
Proof.
  intros Hsz. rewrite vldnew_eq. unfold args_ok.
  destruct (0 <? sz) eqn:E1; [apply Z.ltb_lt in E1|apply Z.ltb_ge in E1];
  (destruct (f =? nullptr) eqn:E2; [apply Z.eqb_eq in E2|apply Z.eqb_neq in E2]);
  (destruct (0 <? ln) eqn:E3; [apply Z.ltb_lt in E3|apply Z.ltb_ge in E3]);
  simpl; try (split; [intros _; lia|done]).
  split; [|lia]. by destruct (os =? nullptr), (can_link os s).
Qed.

(** Lock scope of one call.  Both helpers read and write the registry,
    that is the list head and the [next] and [prev] links, only while they
    hold the heap mutex, and each takes a bounded number of steps.  [vldnew] takes
    the mutex after the request to the operating system has returned and
    the header is filled in, and holds it for the link step alone;
    [vlddelete] takes it before the unlink step and still holds it while it
    releases the block to the operating system. *)
Theorem lock_scope_of_new_and_delete :
  (∀ os junk sz f ln s p s' tr,
     vldnew os junk sz f ln s = Done p s' tr →
     tr = (if os =? nullptr then [EvRtlAllocateHeap (request sz) nullptr]
           else new_events os sz (g_vldBlockList s)) ∧
     List.filter is_registry_access (outside_lock false tr) = [] ∧
     forallb is_registry_access (under_lock false tr) = true ∧
     os_calls_under_lock tr = [] ∧
     (length tr ≤ 16)%nat) ∧
  (∀ b s u s' tr,
     vlddelete b s = Done u s' tr → b ≠ nullptr →
     (∃ h, heap s !! VLDBLOCKHEADER b = Some h ∧
           tr = delete_events (VLDBLOCKHEADER b) h) ∧
     List.filter is_registry_access (outside_lock false tr) = [] ∧
     os_calls_under_lock tr = [EvRtlFreeHeap (VLDBLOCKHEADER b) true] ∧
     (length tr ≤ 14)%nat).
Proof.
  split.
  - intros os junk sz f ln s p s' tr. rewrite vldnew_eq.
    destruct (args_ok sz f ln); [|done].
    destruct (os =? nullptr) eqn:Hos.
    + intros ?. simplify_eq. split_and!; try done. simpl. lia.
    + destruct (can_link os s); [|done]. intros ?. simplify_eq.
      unfold new_events, os_calls_under_lock.
      destruct (g_vldBlockList s =? nullptr); split_and!; try done; simpl; lia.
  - intros b s u s' tr. rewrite vlddelete_eq. intros Hdel Hb.
    apply Z.eqb_neq in Hb. rewrite Hb in Hdel.
    destruct (heap s !! VLDBLOCKHEADER b) as [h|]; [|done].
    destruct (can_unlink h s); [|done]. simplify_eq.
    split; [by exists h|].
    unfold delete_events, os_calls_under_lock.
    destruct (prev h =? nullptr), (next h =? nullptr);
      (split_and!; [reflexivity|reflexivity|simpl; lia]).
Qed.

(** C6, as amended. The calls of a valid sequence made after a reset all
    return, and among the first [2 ^ size_bits] allocations that returned a
    block an earlier one has a strictly smaller serial number than a later
    one; in particular these serial numbers are pairwise distinct. *)
Theorem serials_increase_before_wrap (t : list call) :
  valid_trace [] t = true →
  ∃ s log, run t init_state = Some (s, log) ∧
    ∀ i j si sj, (i < j)%nat → Z.of_nat j < 2 ^ size_bits →
      serials log !! i = Some si → serials log !! j = Some sj →
      si < sj ∧ si ≠ sj.
Proof.
  intros Hvalid.
  destruct (run_valid t [] init_state registry_inv_init Hvalid)
    as (s & log & Hrun & _ & Hser & _).
  exists s, log. split; [done|]. intros i j si sj Hij Hj Hi Hj'.
  rewrite Hser in Hi, Hj'. change (serialnumber init_state) with 0 in *.
  pose proof (lookup_lt_Some _ _ _ Hj') as Hlen. rewrite length_serial_run in Hlen.
  rewrite lookup_serial_run in Hi, Hj' by lia. simplify_eq.
  rewrite !Z.mod_small by lia. lia.
Qed.

(** C10, as amended. A call whose request to the operating system fails
    leaves the serial-number counter untouched, and however many such calls
    are interleaved, the [k]-th allocation of a cycle that returns a block
    (counting from 0) has serial number [k] as long as [k < 2 ^ size_bits]. *)
Theorem serials_consecutive_before_wrap :
  (∀ junk sz f ln s p s' tr,
     vldnew nullptr junk sz f ln s = Done p s' tr →
     serialnumber s' = serialnumber s) ∧
  (∀ t, valid_trace [] t = true →
     ∃ s log, run t init_state = Some (s, log) ∧
       length (serials log) = successes t ∧
       ∀ k sk, serials log !! k = Some sk → Z.of_nat k < 2 ^ size_bits →
               sk = Z.of_nat k).
Proof.
  split.
  - intros junk sz f ln s p s' tr. rewrite vldnew_eq.
    destruct (args_ok sz f ln); [|done]. simpl. intros ?. by simplify_eq.
  - intros t Hvalid.
    destruct (run_valid t [] init_state registry_inv_init Hvalid)
      as (s & log & Hrun & _ & Hser & _).
    exists s, log. split; [done|]. rewrite Hser, length_serial_run.
    split; [done|]. intros k sk Hk Hlt.
    pose proof (lookup_lt_Some _ _ _ Hk) as Hlen. rewrite length_serial_run in Hlen.
    change (serialnumber init_state) with 0 in *.
    rewrite lookup_serial_run in Hk by lia. simplify_eq.
    rewrite Z.mod_small by lia. lia.
Qed.

End AllocatorClaims.

(** * The claims about the load cycle *)

Section LoadCycleClaims.
Import LoadCycle.
Context `{Platform}.

Lemma exec_cons e t p : exec (e :: t) p = exec t (step p e).
Proof. reflexivity. Qed.

(** Load and unload events that keep the detector loaded do not touch the
    count or the reports: two processes that agree on both keep agreeing
    when one of them skips those events. *)
Lemma exec_skips_nested_cycles t : ∀ p q,
  (1 ≤ load_depth p)%nat → (1 ≤ load_depth q)%nat →
  tracked p = tracked q → reports p = reports q →
  stays_loaded (load_depth p) t = true →
  tracked (exec t p) = tracked (exec (List.filter is_host_event t) q) ∧
  reports (exec t p) = reports q ∧
  (1 ≤ load_depth (exec t p))%nat.
Proof.
  induction t as [|e t IH]; intros p q Hp Hq Htr Hrep Hstay.
  { by split_and!. }
  destruct p as [d sp np rp], q as [d' sq nq rq]. simpl in *. subst nq rq.
  destruct d as [|d]; [lia|]. destruct d' as [|d']; [lia|].
  destruct e; cbn [List.filter is_host_event]; rewrite ?exec_cons.
  - apply (IH (Process (S (S d)) sp np rp) (Process (S d') sq np rp));
      simpl; try done; lia.
  - simpl in Hstay. apply andb_true_iff in Hstay as [Hd Hstay].
    destruct d as [|d]; [done|].
    apply (IH (Process (S d) sp np rp) (Process (S d') sq np rp));
      simpl; try done; lia.
  - apply (IH (Process (S d) sp (S np) rp) (Process (S d') sq (S np) rp));
      simpl; try done; lia.
  - apply (IH (Process (S d) sp (pred np) rp) (Process (S d') sq (pred np) rp));
      simpl; try done; lia.
Qed.

Lemma exec_host_allocs k p :
  (1 ≤ load_depth p)%nat →
  tracked (exec (replicate k HostAlloc) p) = (tracked p + k)%nat ∧
  load_depth (exec (replicate k HostAlloc) p) = load_depth p.
Proof.
  revert p. induction k as [|k IH]; intros p Hp.
  { simpl. split; [lia|done]. }
  cbn [replicate]. rewrite exec_cons. destruct p as [[|d] sp np rp]; [simpl in Hp; lia|].
  cbn [step host_alloc load_depth vld tracked reports].
  destruct (IH (Process (S d) sp (S np) rp)) as [-> ->]; simpl; [lia|].
  split; [lia|done].
Qed.

Lemma exec_app t1 t2 p : exec (t1 ++ t2) p = exec t2 (exec t1 p).
Proof. apply fold_left_app. Qed.

(** C3. While the detector stays loaded, load and unload events neither
    reset nor change the tracked count, which is what the host events alone
    make of it, and produce no report; an unload from depth 2 or more leaves
    the answer of the query as it was; the final report is produced by an
    unload from depth 1 and by nothing else. *)
Theorem nested_loads_accumulate (p : process) :
  (∀ t, (1 ≤ load_depth p)%nat → stays_loaded (load_depth p) t = true →
     tracked (exec t p) = tracked (exec (List.filter is_host_event t) p) ∧
     reports (exec t p) = reports p) ∧
  ((2 ≤ load_depth p)%nat →
     tracked (onUnload p) = tracked p ∧
     VLDGetLeaksCount (onUnload p) = VLDGetLeaksCount p) ∧
  (load_depth p = 0%nat → ∀ k1 k2,
     let t := Load :: replicate k1 HostAlloc ++ Load :: replicate k2 HostAlloc in
     load_depth (exec t p) = 2%nat ∧ tracked (exec t p) = (k1 + k2)%nat) ∧
  (∀ e, reports (step p e) =
        match e, load_depth p with
        | Unload, 1%nat => reports p ++ [tracked p]
        | _, _ => reports p
        end).
Proof.
  split_and!.
  - intros t Hp Hstay.
    destruct (exec_skips_nested_cycles t p p) as (? & ? & _); done.
  - intros Hd. destruct p as [[|[|d]] sp np rp]; simpl in *; try lia. done.
  - intros Hd k1 k2. cbv zeta. rewrite exec_cons, exec_app, exec_cons.
    destruct p as [d sp np rp]. simpl in Hd. subst d.
    cbn [step onLoad load_depth reports].
    destruct (exec_host_allocs k1 (Process 1 init_state 0 rp)) as [Htr Hdp]; [simpl; lia|].
    destruct (exec (replicate k1 HostAlloc) (Process 1 init_state 0 rp))
      as [d1 s1 n1 r1]. simpl in Htr, Hdp. subst d1 n1.
    cbn [step onLoad load_depth vld tracked reports].
    destruct (exec_host_allocs k2 (Process 2 s1 k1 r1)) as [-> ->]; [simpl; lia|].
    done.
  - intros e. destruct p as [[|[|d]] sp np rp], e; simpl; try done.
Qed.

(** C4. Once the detector is fully unloaded, whatever happened before,
    [VLDGetLeaksCount] of the test returns [(UINT)-1], which the caller
    reads as the [int] -1. *)
Theorem leak_count_after_full_unload (p : process) :
  load_depth p = 1%nat →
  load_depth (onUnload p) = 0%nat ∧
  VLDGetLeaksCount (onUnload p) = UINT (-1) ∧
  INT (VLDGetLeaksCount (onUnload p)) = -1.
Proof.
  intros Hd. destruct p as [d sp np rp]. simpl in Hd. subst d. by split_and!.
Qed.

(** C1. Whatever the process went through before, the load that takes
    the depth from 0 to 1 leaves the serial-number counter at 0, every valid
    sequence of calls made from there returns, and the first allocation
    that returns a block, if there is one, carries serial number 0. *)
Theorem first_serial_after_reset_is_zero (p : process) (t : list call) :
  load_depth p = 0%nat → valid_trace [] t = true →
  serialnumber (vld (onLoad p)) = 0 ∧
  ∃ s log, run t (vld (onLoad p)) = Some (s, log) ∧
    length log = successes t ∧
    ∀ a, head log = Some a → serialNumber (snd a) = 0.
Proof.
  intros Hd Hvalid. unfold onLoad. rewrite Hd. simpl. split; [done|].
  destruct (run_valid t [] init_state registry_inv_init Hvalid)
    as (s & log & Hrun & _ & Hser & _).
  exists s, log. split; [done|].
  assert (Hlen : length log = successes t).
  { rewrite <- (length_serial_run (serialnumber init_state) (successes t)), <- Hser.
    unfold serials. by rewrite length_map. }
  split; [done|]. intros a Ha.
  destruct log as [|a' log]; simplify_eq/=.
  destruct (successes t); simplify_eq/=. done.
Qed.

(** The expectations of the two tests hold from process start. *)
Lemma test_unload_dlls1_passes :
  TestUnloadDlls1 boot = [(1, 1); (-1, -1); (1, 1); (-1, -1)].
Proof. reflexivity. Qed.

Lemma test_unload_dlls2_passes :
  TestUnloadDlls2 boot = [(1, 1); (2, 2); (2, 2); (-1, -1)].
Proof. reflexivity. Qed.

End LoadCycleClaims.

(** * The claims at concrete inputs, on the 32-bit target *)

Section OnX86.
#[local] Existing Instance x86.

Lemma registry_consistent_after_calls_witness :
  ∃ s log, run sample_calls init_state = Some (s, log) ∧
           registry_consistent s (VLDBLOCKHEADER <$> live_after [] sample_calls).
Proof. apply (@registry_consistent_after_calls x86 sample_calls). reflexivity. Defined.

Lemma header_round_trip_witness :
  ∃ h, heap (linked 1000 8 500 10 init_state) !! VLDBLOCKHEADER 1024 = Some h ∧
       size h = 8 ∧ file h = 500 ∧ line h = 10.
Proof.
  apply (@header_round_trip x86 1000 junk 8 500 10 init_state 1024
           (linked 1000 8 500 10 init_state)
           (new_events 1000 8 nullptr)).
  - vm_compute. reflexivity.
  - vm_compute. discriminate.
Defined.

Lemma failed_allocation_changes_nothing_witness :
  vldnew nullptr junk 8 500 10 init_state
  = Done nullptr init_state [EvRtlAllocateHeap 32 nullptr].
Proof.
  apply (@failed_allocation_changes_nothing x86 junk 8 500 10 init_state).
  - reflexivity.
  - vm_compute. discriminate.
  - reflexivity.
Defined.

Lemma vldnew_asserts_its_arguments_witness :
  vldnew 1000 junk 0 500 10 init_state = AssertFail
  ↔ 0 = 0 ∨ 500 = nullptr ∨ 10 ≤ 0.
Proof.
  apply (@vldnew_asserts_its_arguments x86 1000 junk 0 500 10 init_state). lia.
Defined.

Lemma lock_scope_of_new_and_delete_witness :
  let tr := delete_events 1000 (Header nullptr nullptr 500 10 0 8) in
  (∃ h, heap (linked 1000 8 500 10 init_state) !! VLDBLOCKHEADER 1024 = Some h ∧
        tr = delete_events (VLDBLOCKHEADER 1024) h) ∧
  List.filter is_registry_access (outside_lock false tr) = [] ∧
  os_calls_under_lock tr = [EvRtlFreeHeap (VLDBLOCKHEADER 1024) true] ∧
  (length tr ≤ 14)%nat.
Proof.
  apply (proj2 (@lock_scope_of_new_and_delete x86) 1024
           (linked 1000 8 500 10 init_state) tt (State nullptr 1 ∅)).
  - vm_compute. reflexivity.
  - vm_compute. discriminate.
Defined.

Lemma serials_increase_before_wrap_witness :
  ∃ s log, run sample_calls init_state = Some (s, log) ∧
    ∀ i j si sj, (i < j)%nat → Z.of_nat j < 2 ^ 32 →
      serials log !! i = Some si → serials log !! j = Some sj →
      si < sj ∧ si ≠ sj.
Proof. apply (@serials_increase_before_wrap x86 sample_calls). reflexivity. Defined.

Lemma serials_consecutive_before_wrap_witness :
  ∃ s log, run sample_calls init_state = Some (s, log) ∧
    length (serials log) = 3%nat ∧
    ∀ k sk, serials log !! k = Some sk → Z.of_nat k < 2 ^ 32 → sk = Z.of_nat k.
Proof.
  apply (proj2 (@serials_consecutive_before_wrap x86) sample_calls). reflexivity.
Defined.

(** C6, as stated, fails on the 32-bit target: after [2 ^ 32] rounds of
    allocating and freeing one block the counter is back at 0, so the next
    allocation repeats the serial number of the first. *)
Lemma serials_wrap_on_x86 : ¬ @serials_always_increase x86.
Proof.
  apply (@not_serials_always_increase x86 (Z.to_nat (2 ^ 32))).
  apply Z2Nat.id. apply Z.pow_nonneg. lia.
Qed.

(** C10, as stated, fails on the 32-bit target for the same sequence of
    calls: allocation number [2 ^ 32] gets serial number 0. *)
Lemma serials_not_consecutive_on_x86 : ¬ @serials_always_consecutive x86.
Proof.
  apply (@not_serials_always_consecutive x86 (Z.to_nat (2 ^ 32))).
  apply Z2Nat.id. apply Z.pow_nonneg. lia.
Qed.

(** [vlddelete] calls [RtlFreeHeap] while it holds the heap mutex. *)
Lemma delete_releases_block_under_lock : ¬ @lock_never_spans_os_call x86.
Proof.
  intros [_ Hdel].
  specialize (Hdel 1024 (linked 1000 8 500 10 init_state) tt (State nullptr 1 ∅)
                (delete_events 1000 (Header nullptr nullptr 500 10 0 8))).
  assert (Hrun : vlddelete 1024 (linked 1000 8 500 10 init_state)
                 = Done tt (State nullptr 1 ∅)
                        (delete_events 1000 (Header nullptr nullptr 500 10 0 8))).
  { vm_compute. reflexivity. }
  specialize (Hdel Hrun). discriminate Hdel.
Qed.

Import LoadCycle.

Lemma nested_loads_accumulate_witness :
  tracked (exec [HostAlloc; Load; HostAlloc; Unload; HostFree] (onLoad boot))
  = tracked (exec [HostAlloc; HostAlloc; HostFree] (onLoad boot)) ∧
  reports (exec [HostAlloc; Load; HostAlloc; Unload; HostFree] (onLoad boot))
  = reports (onLoad boot).
Proof.
  apply (proj1 (nested_loads_accumulate (onLoad boot))
           [HostAlloc; Load; HostAlloc; Unload; HostFree]).
  - simpl. lia.
  - reflexivity.
Defined.

Lemma leak_count_after_full_unload_witness :
  load_depth (onUnload (host_alloc (onLoad boot))) = 0%nat ∧
  VLDGetLeaksCount (onUnload (host_alloc (onLoad boot))) = UINT (-1) ∧
  INT (VLDGetLeaksCount (onUnload (host_alloc (onLoad boot)))) = -1.
Proof. apply (leak_count_after_full_unload (host_alloc (onLoad boot))). reflexivity. Defined.

Lemma first_serial_after_reset_is_zero_witness :
  let p := onUnload (internal_calls sample_calls (host_alloc (onLoad boot))) in
  serialnumber (vld p) = 3 ∧
  serialnumber (vld (onLoad p)) = 0 ∧
  ∃ s log, run sample_calls (vld (onLoad p)) = Some (s, log) ∧
    length log = successes sample_calls ∧
    ∀ a, head log = Some a → serialNumber (snd a) = 0.
Proof.
  split; [reflexivity|].
  apply (@first_serial_after_reset_is_zero x86
           (onUnload (internal_calls sample_calls (host_alloc (onLoad boot))))
           sample_calls); reflexivity.
Defined.
End OnX86.

(** * Further properties of the allocator *)

Section AllocatorExtras.
Context `{Platform}.

(** Under the registry invariant, unlinking the block that was linked last
    gives back the heap and the list head. *)
Lemma unlinked_linked s l os sz f ln :
  registry_inv s l → os ≠ nullptr → os ∉ l →
  unlinked os (Header (g_vldBlockList s) nullptr f ln (serialnumber s) sz)
           (linked os sz f ln s)
  = State (g_vldBlockList s) ((serialnumber s + 1) mod 2 ^ size_bits) (heap s).
Proof.
  intros (Hdll & Hnd & Hdom) Hos Hfresh. unfold unlinked, linked. simpl.
  f_equal. apply map_eq. intros a.
  destruct (decide (a = os)) as [->|Hne].
  { rewrite lookup_delete_eq. symmetry. apply eq_None_not_Some.
    intros Hs. by apply Hfresh, Hdom. }
  rewrite lookup_delete_ne by done.
  unfold alter_nz at 2. simpl.
  destruct l as [|b l]; simpl in Hdll.
  - rewrite Hdll. unfold alter_nz. simpl. by rewrite lookup_insert_ne.
  - destruct Hdll as (Hcur & Hb & h & Hh & Hp & _). rewrite Hcur.
    apply not_elem_of_cons in Hfresh as [Hosb _].
    unfold alter_nz. apply Z.eqb_neq in Hb. rewrite Hb. apply Z.eqb_neq in Hb.
    destruct (decide (a = b)) as [->|Hab].
    + rewrite lookup_alter_eq, lookup_insert_ne, lookup_alter_eq, Hh by done.
      simpl. f_equal. destruct h; simpl in *. by subst.
    + by rewrite lookup_alter_ne, lookup_insert_ne, lookup_alter_ne.
Qed.

(** X1. In a state reached by valid calls, allocating a block with any of
    the [new] operators and giving it back with any of the [delete]
    operators restores the list head and every header; only the serial
    counter has moved on. *)
Theorem new_then_delete_restores_registry
    (nop : new_operator) (dop : delete_operator) t os jnk sz f ln :
  valid_trace [] (t ++ [New os jnk sz f ln]) = true → os ≠ nullptr →
  ∃ s log s1 tr1 s2 tr2,
    run t init_state = Some (s, log) ∧
    call_new nop os jnk sz f ln s = Done (VLDBLOCKDATA os) s1 tr1 ∧
    call_delete dop (VLDBLOCKDATA os) s1 = Done tt s2 tr2 ∧
    s2 = State (g_vldBlockList s) ((serialnumber s + 1) mod 2 ^ size_bits) (heap s).
Proof.
  intros Hvalid Hos. rewrite valid_trace_app in Hvalid.
  apply andb_true_iff in Hvalid as [Hv1 Hv2].
  destruct (run_valid t [] init_state registry_inv_init Hv1)
    as (s & log & Hrun & Hinv & _).
  simpl in Hv2. rewrite andb_true_r in Hv2.
  apply andb_true_iff in Hv2 as [Hargs Hfresh].
  apply Z.eqb_neq in Hos. rewrite Hos in Hfresh. simpl in Hfresh.
  apply andb_true_iff in Hfresh as [Hpos Hfresh].
  apply Z.ltb_lt in Hpos. apply negb_true_iff in Hfresh.
  assert (Hnotin : os ∉ VLDBLOCKHEADER <$> live_after [] t).
  { rewrite <- (header_of_data os) at 1. rewrite header_elem_of.
    intros Hin%is_live_elem_of. congruence. }
  assert (Hnew : vldnew os jnk sz f ln s
                 = Done (VLDBLOCKDATA os) (linked os sz f ln s)
                        (new_events os sz (g_vldBlockList s))).
  { rewrite vldnew_eq. unfold args_ok. rewrite Hargs, Hos.
    by rewrite (registry_inv_can_link _ _ os Hinv). }
  assert (Hdel : ∃ tr2, vlddelete (VLDBLOCKDATA os) (linked os sz f ln s)
                 = Done tt (State (g_vldBlockList s)
                              ((serialnumber s + 1) mod 2 ^ size_bits) (heap s)) tr2).
  { rewrite vlddelete_eq.
    assert ((VLDBLOCKDATA os =? nullptr) = false) as ->.
    { apply Z.eqb_neq. pose proof header_size_pos. unfold VLDBLOCKDATA, nullptr. lia. }
    rewrite header_of_data.
    assert (Hinv1 : registry_inv (linked os sz f ln s)
                      (os :: (VLDBLOCKHEADER <$> live_after [] t))).
    { apply registry_inv_linked; [done| |done]. unfold nullptr. lia. }
    destruct (registry_inv_unlinked _ _ os Hinv1) as (h & Hh & Hcan & _);
      [apply list_elem_of_here|].
    rewrite Hh, Hcan. unfold linked in Hh. simpl in Hh.
    rewrite lookup_insert_eq in Hh. simplify_eq.
    eexists. f_equal. eapply unlinked_linked; [done| |done]. unfold nullptr. lia. }
  destruct Hdel as [tr2 Hdel].
  exists s, log, (linked os sz f ln s), (new_events os sz (g_vldBlockList s)).
  eexists _, tr2. split; [done|]. split; [by destruct nop|].
  split; [|done]. by destruct dop.
Qed.

(** X2. What the block that the operating system hands over contained
    before does not matter: [vldnew] writes every field of the header
    before it reads it. *)
Theorem vldnew_ignores_old_content os junk1 junk2 sz f ln s :
  vldnew os junk1 sz f ln s = vldnew os junk2 sz f ln s.
Proof. by rewrite !vldnew_eq. Qed.

(** X3. A [vldnew] that returns a block makes it the list head, in front
    of the old head and with the current value of the serial counter; of
    the blocks that were there, only the old head changes, and only in its
    [prev]. *)
Theorem vldnew_links_at_front os jnk sz f ln s p s' tr :
  vldnew os jnk sz f ln s = Done p s' tr → p ≠ nullptr →
  g_vldBlockList s' = VLDBLOCKHEADER p ∧
  (∃ h, heap s' !! VLDBLOCKHEADER p = Some h ∧
        next h = g_vldBlockList s ∧ prev h = nullptr ∧
        serialNumber h = serialnumber s) ∧
  (∀ a, a ≠ VLDBLOCKHEADER p → a ≠ g_vldBlockList s →
        heap s' !! a = heap s !! a) ∧
  (g_vldBlockList s ≠ VLDBLOCKHEADER p → g_vldBlockList s ≠ nullptr →
   heap s' !! g_vldBlockList s
   = set_prev (VLDBLOCKHEADER p) <$> heap s !! g_vldBlockList s).
Proof.
  rewrite vldnew_eq. intros Hnew Hp.
  destruct (args_ok sz f ln); [|done].
  destruct (os =? nullptr); [by simplify_eq|].
  destruct (can_link os s); [|done]. simplify_eq.
  rewrite header_of_data. unfold linked, alter_nz. simpl. split_and!.
  - done.
  - eexists. by rewrite lookup_insert_eq.
  - intros a Ha Hhd. rewrite lookup_insert_ne by done.
    destruct (g_vldBlockList s =? nullptr); [done|]. by rewrite lookup_alter_ne.
  - intros Hne Hnz. rewrite lookup_insert_ne by done.
    apply Z.eqb_neq in Hnz. rewrite Hnz. apply lookup_alter_eq.
Qed.

Lemma alter_nz_provenance f k (m : gmap Z vldblockheader_t) a ha :
  (∀ x, same_provenance x (f x)) → m !! a = Some ha →
  ∃ ha', alter_nz f k m !! a = Some ha' ∧ same_provenance ha ha'.
Proof.
  intros Hf Hha. unfold alter_nz. destruct (k =? nullptr).
  { exists ha. split; [done|]. by destruct ha. }
  destruct (decide (k = a)) as [->|Hne].
  - rewrite lookup_alter_eq, Hha. eexists. split; [reflexivity|apply Hf].
  - rewrite lookup_alter_ne by done. exists ha. split; [done|]. by destruct ha.
Qed.

(** X4. A [vlddelete] that returns from a non-null pointer frees exactly
    the block in front of it and keeps the serial counter; the list head
    moves only when that block was the head; the headers of all blocks but
    its two neighbours are untouched, and no header changes its size, file,
    line or serial number. *)
Theorem vlddelete_unlinks_locally b s u s' tr :
  vlddelete b s = Done u s' tr → b ≠ nullptr →
  ∃ h, heap s !! VLDBLOCKHEADER b = Some h ∧
    heap s' !! VLDBLOCKHEADER b = None ∧
    serialnumber s' = serialnumber s ∧
    g_vldBlockList s' = (if prev h =? nullptr then next h else g_vldBlockList s) ∧
    (∀ a, a ≠ VLDBLOCKHEADER b → a ≠ prev h → a ≠ next h →
          heap s' !! a = heap s !! a) ∧
    (∀ a ha, a ≠ VLDBLOCKHEADER b → heap s !! a = Some ha →
          ∃ ha', heap s' !! a = Some ha' ∧ same_provenance ha ha').
Proof.
  rewrite vlddelete_eq. intros Hdel Hb. apply Z.eqb_neq in Hb. rewrite Hb in Hdel.
  destruct (heap s !! VLDBLOCKHEADER b) as [h|] eqn:Hh; [|done].
  destruct (can_unlink h s); [|done]. simplify_eq.
  exists h. unfold unlinked. simpl. split_and!; try done.
  - apply lookup_delete_eq.
  - intros a Ha Hp Hn. rewrite lookup_delete_ne by done. unfold alter_nz.
    destruct (next h =? nullptr), (prev h =? nullptr);
      by rewrite ?lookup_alter_ne by done.
  - intros a ha Ha Hha. rewrite lookup_delete_ne by done.
    destruct (alter_nz_provenance (set_next (next h)) (prev h) _ _ _
                (λ x, ltac:(by destruct x)) Hha) as (h1 & Hh1 & (? & ? & ? & ?)).
    destruct (alter_nz_provenance (set_prev (prev h)) (next h) _ _ _
                (λ x, ltac:(by destruct x)) Hh1) as (h2 & Hh2 & (? & ? & ? & ?)).
    exists h2. split; [done|]. unfold same_provenance. split_and!; congruence.
Qed.

End AllocatorExtras.

Section Counting.
Context `{Platform}.

Lemma length_filter_ne (l : list Z) x :
  NoDup l → x ∈ l → S (length (filter (λ p, p ≠ x) l)) = length l.
Proof.
  intros Hnd Hx. destruct (list_elem_of_split _ _ Hx) as (l1 & l2 & ->).
  rewrite filter_ne_split by done. rewrite !length_app. simpl. lia.
Qed.

Lemma live_after_cons live c t :
  live_after live (c :: t) = live_after (live_step live c) t.
Proof. reflexivity. Qed.

Lemma live_after_count t : ∀ live,
  NoDup live → valid_trace live t = true →
  (length (live_after live t) + deletions t = length live + successes t)%nat.
Proof.
  unfold deletions, successes.
  induction t as [|c t IH]; intros live Hnd Hvalid; [simpl; lia|].
  simpl in Hvalid. apply andb_true_iff in Hvalid as [Hc Ht].
  rewrite live_after_cons.
  destruct c as [os j sz f ln|b]; simpl in Hc;
    cbn [live_step List.filter successful is_deletion] in *.
  - apply andb_true_iff in Hc as [_ Hos].
    destruct (os =? nullptr) eqn:Hnull; simpl in Hos |- *.
    + by apply IH.
    + apply andb_true_iff in Hos as [_ Hfresh]. apply negb_true_iff in Hfresh.
      rewrite <- Nat.add_succ_comm. simpl. rewrite <- (IH (VLDBLOCKDATA os :: live)); [done| |done].
      apply NoDup_cons. split; [|done].
      intros Hin%is_live_elem_of. congruence.
  - destruct (b =? nullptr) eqn:Hnull; simpl in Hc |- *.
    + by apply IH.
    + apply is_live_elem_of in Hc.
      pose proof (length_filter_ne live b Hnd Hc) as Hlen.
      rewrite <- Nat.add_succ_comm. simpl.
      rewrite (IH (filter (λ p, p ≠ b) live)); [lia| |done].
      by apply NoDup_filter.
Qed.

Lemma registry_inv_size s l : registry_inv s l → base.size (heap s) = length l.
Proof.
  intros (_ & Hnd & Hdom).
  rewrite <- (size_dom (D := gset Z)).
  assert (dom (heap s) = list_to_set l) as ->.
  { apply set_eq. intros a. rewrite elem_of_dom, elem_of_list_to_set. apply Hdom. }
  by apply size_list_to_set.
Qed.

Lemma registry_inv_head_null s l :
  registry_inv s l → g_vldBlockList s = nullptr ↔ l = [].
Proof.
  intros (Hdll & _ & _). destruct l as [|a l]; simpl in Hdll.
  - done.
  - destruct Hdll as (-> & Hnz & _). split; [done|discriminate].
Qed.

(** X5. After a valid sequence of calls the private heap holds as many
    blocks as allocations returned a block minus deallocations freed one;
    the list head is null exactly when the two numbers are equal, and then
    the heap is empty. *)
Theorem registry_counts_outstanding_blocks (t : list call) :
  valid_trace [] t = true →
  ∃ s log, run t init_state = Some (s, log) ∧
    (base.size (heap s) + deletions t = successes t)%nat ∧
    (g_vldBlockList s = nullptr ↔ successes t = deletions t) ∧
    (g_vldBlockList s = nullptr → heap s = ∅).
Proof.
  intros Hvalid.
  destruct (run_valid t [] init_state registry_inv_init Hvalid)
    as (s & log & Hrun & Hinv & _).
  exists s, log. split; [done|].
  pose proof (live_after_count t [] (NoDup_nil_2) Hvalid) as Hcount.
  pose proof (registry_inv_size _ _ Hinv) as Hsize.
  rewrite length_fmap in Hsize. simpl in Hcount.
  pose proof (registry_inv_head_null _ _ Hinv) as Hnull.
  split_and!.
  - lia.
  - rewrite Hnull. split.
    + intros Hl%fmap_nil_inv. rewrite Hl in Hcount. simpl in Hcount. lia.
    + intros Heq. apply nil_length_inv. rewrite length_fmap. lia.
  - intros Hhd. apply Hnull in Hhd. apply fmap_nil_inv in Hhd.
    rewrite Hhd in Hsize. by apply map_size_empty_inv.
Qed.

(** Calls that take an early return leave no trace in a run. *)
Lemma run_skips_ineffective c t s :
  well_called c = true → effective c = false → run (c :: t) s = run t s.
Proof.
  intros Hw He. destruct c as [os j sz f ln|b]; simpl in Hw, He.
  - apply negb_false_iff in He. cbn [run]. rewrite vldnew_eq, Hw, He.
    simpl. by destruct (run t s) as [[? ?]|].
  - apply negb_false_iff in He. cbn [run]. by rewrite vlddelete_eq, He.
Qed.

(** X6. Deallocations of [nullptr] and allocations that the operating
    system turns down can be struck from a sequence of calls: from any
    state, the run ends in the same state with the same allocations, or
    fails in both cases. *)
Theorem run_ignores_early_returns (t : list call) (s : state) :
  forallb well_called t = true →
  run t s = run (List.filter effective t) s.
Proof.
  revert s. induction t as [|c t IH]; intros s Hw; [done|].
  simpl in Hw. apply andb_true_iff in Hw as [Hc Ht]. cbn [List.filter].
  destruct (effective c) eqn:He.
  - destruct c as [os j sz f ln|b]; cbn [run].
    + destruct (vldnew os j sz f ln s) as [p s1 tr| |]; [|done..].
      by rewrite IH.
    + destruct (vlddelete b s) as [u s1 tr| |]; [|done..]. by apply IH.
  - rewrite run_skips_ineffective by done. by apply IH.
Qed.

(** X7. The byte count [vldnew] hands to [RtlAllocateHeap] is computed in
    [size_t]: it is the size plus the header size as long as that sum fits,
    and wraps to less than a header for the largest sizes. *)
Theorem vldnew_request_size os jnk sz f ln s p s' tr :
  vldnew os jnk sz f ln s = Done p s' tr →
  0 ≤ sz < 2 ^ size_bits → header_size < 2 ^ size_bits →
  (∃ rest, tr = EvRtlAllocateHeap (request sz) os :: rest) ∧
  (sz < 2 ^ size_bits - header_size → request sz = sz + header_size) ∧
  (2 ^ size_bits - header_size ≤ sz →
     request sz = sz + header_size - 2 ^ size_bits ∧ request sz < header_size).
Proof.
  rewrite vldnew_eq. intros Hnew Hsz Hhs. pose proof header_size_pos as Hpos.
  split_and!.
  - destruct (args_ok sz f ln); [|done].
    destruct (os =? nullptr) eqn:Hos.
    + apply Z.eqb_eq in Hos. simplify_eq. eauto.
    + destruct (can_link os s); [|done]. simplify_eq. unfold new_events.
      simpl. eauto.
  - intros Hfit. unfold request. apply Z.mod_small. lia.
  - intros Hwrap. unfold request.
    assert ((sz + header_size) mod 2 ^ size_bits = sz + header_size - 2 ^ size_bits) as ->.
    { symmetry. apply (Z.mod_unique_pos _ _ 1); lia. }
    lia.
Qed.

End Counting.

Section Canonical.
Context `{Platform}.

(** X8. A block keeps its size, file and line, and the serial number it
    was given, which is the number of earlier allocations that returned a
    block (modulo [2 ^ size_bits]), until it is given back, whatever valid
    calls come before and after its allocation. *)
Theorem outstanding_block_keeps_provenance (before after : list call) os jnk sz f ln :
  valid_trace [] (before ++ New os jnk sz f ln :: after) = true →
  os ≠ nullptr →
  Delete (VLDBLOCKDATA os) ∉ after →
  ∃ s log h,
    run (before ++ New os jnk sz f ln :: after) init_state = Some (s, log) ∧
    heap s !! VLDBLOCKHEADER (VLDBLOCKDATA os) = Some h ∧
    size h = sz ∧ file h = f ∧ line h = ln ∧
    serialNumber h = Z.of_nat (successes before) mod 2 ^ size_bits.
Proof.
  intros Hvalid Hos Hkeep. rewrite valid_trace_app in Hvalid.
  apply andb_true_iff in Hvalid as [Hv1 Hv2].
  destruct (run_valid before [] init_state registry_inv_init Hv1)
    as (s1 & log1 & Hrun1 & Hinv1 & _ & Hsn).
  rewrite serial_after_mod in Hsn by (pose proof size_modulus_pos; simpl; lia).
  rewrite (run_app _ _ _ _ _ Hrun1).
  simpl in Hv2. apply andb_true_iff in Hv2 as [Hvc Hv3].
  apply andb_true_iff in Hvc as [Hargs Hfresh].
  apply Z.eqb_neq in Hos. cbn [live_step] in Hv3. rewrite Hos in Hv3, Hfresh.
  simpl in Hfresh. apply andb_true_iff in Hfresh as [Hpos Hfresh].
  apply Z.ltb_lt in Hpos. apply negb_true_iff in Hfresh.
  cbn [run]. rewrite vldnew_eq. unfold args_ok. rewrite Hargs, Hos.
  rewrite (registry_inv_can_link _ _ os Hinv1).
  assert (Hinv2 : registry_inv (linked os sz f ln s1)
                    (VLDBLOCKHEADER <$> (VLDBLOCKDATA os :: live_after [] before))).
  { rewrite fmap_cons, header_of_data. apply registry_inv_linked; [done|..].
    - unfold nullptr. lia.
    - rewrite <- (header_of_data os) at 1. rewrite header_elem_of.
      intros Hin%is_live_elem_of. congruence. }
  destruct (run_keeps_provenance after _ _ os
              (Header (g_vldBlockList s1) nullptr f ln (serialnumber s1) sz) Hinv2 Hv3)
    as (s & log & h & Hrun & Hh & Hp).
  { unfold linked. simpl. apply lookup_insert_eq. }
  { apply list_elem_of_here. }
  { done. }
  rewrite Hrun. rewrite header_of_data. eexists _, _, h. split; [done|].
  split; [done|]. destruct Hp as (? & ? & ? & Hs). simpl in *.
  split_and!; try done. by rewrite Hs, Hsn.
Qed.

(** The list of a registry and what the allocations wrote into the headers
    determine the head and the whole heap. *)
Lemma registry_inv_determines s s' l :
  registry_inv s l → registry_inv s' l →
  (∀ a h h', heap s !! a = Some h → heap s' !! a = Some h' → same_provenance h h') →
  g_vldBlockList s = g_vldBlockList s' ∧ heap s = heap s'.
Proof.
  intros (Hdll & Hnd & Hdom) (Hdll' & _ & Hdom') Hprov. split.
  { by rewrite (dll_head _ _ _ _ Hdll), (dll_head _ _ _ _ Hdll'). }
  apply map_eq. intros a.
  destruct (decide (a ∈ l)) as [Ha|Ha].
  - destruct (proj2 (Hdom a) Ha) as [h Hh], (proj2 (Hdom' a) Ha) as [h' Hh'].
    rewrite Hh, Hh'. f_equal.
    destruct (list_elem_of_split _ _ Ha) as (l1 & l2 & ->).
    destruct (dll_middle _ _ _ _ _ _ _ Hdll Hh) as [Hp Hn].
    destruct (dll_middle _ _ _ _ _ _ _ Hdll' Hh') as [Hp' Hn'].
    destruct (Hprov _ _ _ Hh Hh') as (? & ? & ? & ?).
    destruct h, h'. simpl in *. congruence.
  - assert (heap s !! a = None) as ->.
    { apply eq_None_not_Some. intros Hs. by apply Ha, Hdom. }
    symmetry. apply eq_None_not_Some. intros Hs. by apply Ha, Hdom'.
Qed.

Lemma live_step_deletes_commute live a b :
  live_step (live_step live (Delete a)) (Delete b)
  = live_step (live_step live (Delete b)) (Delete a).
Proof.
  simpl. destruct (a =? nullptr), (b =? nullptr); try done.
  rewrite !list_filter_filter. apply list_filter_iff. intros x. tauto.
Qed.

Lemma valid_deletes_swap live a b :
  valid_trace live [Delete a; Delete b] = true →
  valid_trace live [Delete b; Delete a] = true.
Proof.
  simpl. rewrite !andb_true_r. intros [Ha Hb]%andb_true_iff.
  destruct (a =? nullptr) eqn:Ea, (b =? nullptr) eqn:Eb; simpl in *; try done.
  - by rewrite Hb.
  - apply is_live_elem_of, list_elem_of_filter in Hb as [Hne Hb].
    apply is_live_elem_of in Ha.
    apply andb_true_iff. split; apply is_live_elem_of; [done|].
    apply list_elem_of_filter. split; [congruence|done].
Qed.

Lemma alter_nz_provenance_back f k (m : gmap Z vldblockheader_t) c h' :
  (∀ x, same_provenance x (f x)) → alter_nz f k m !! c = Some h' →
  ∃ h, m !! c = Some h ∧ same_provenance h h'.
Proof.
  intros Hf. unfold alter_nz. destruct (k =? nullptr).
  { intros Hc. exists h'. split; [done|]. by destruct h'. }
  destruct (decide (k = c)) as [->|Hne].
  - rewrite lookup_alter_eq. destruct (m !! c) as [h|]; [|done].
    intros [= <-]. exists h. split; [done|apply Hf].
  - rewrite lookup_alter_ne by done. intros Hc. exists h'.
    split; [done|]. by destruct h'.
Qed.

(** The headers a [vlddelete] leaves behind were there before, with the
    same size, file, line and serial number, and the counter is kept. *)
Lemma vlddelete_keeps_provenance b s u s' tr :
  vlddelete b s = Done u s' tr →
  serialnumber s' = serialnumber s ∧
  ∀ c hc', heap s' !! c = Some hc' →
    ∃ hc, heap s !! c = Some hc ∧ same_provenance hc hc'.
Proof.
  rewrite vlddelete_eq. destruct (b =? nullptr).
  { intros ?. simplify_eq. split; [done|]. intros c hc' Hc. exists hc'.
    split; [done|]. by destruct hc'. }
  destruct (heap s !! VLDBLOCKHEADER b) as [h|]; [|done].
  destruct (can_unlink h s); [|done]. intros ?. simplify_eq.
  split; [done|]. intros c hc'. unfold unlinked. simpl.
  destruct (decide (VLDBLOCKHEADER b = c)) as [<-|Hne].
  { by rewrite lookup_delete_eq. }
  rewrite lookup_delete_ne by done. intros Hc.
  apply alter_nz_provenance_back in Hc as (h1 & Hc & (? & ? & ? & ?));
    [|intros x; by destruct x].
  apply alter_nz_provenance_back in Hc as (h0 & Hc & (? & ? & ? & ?));
    [|intros x; by destruct x].
  exists h0. split; [done|]. unfold same_provenance. split_and!; congruence.
Qed.

(** Two deallocations in a row, from a state with a consistent registry. *)
Lemma run_two_deletes live s a b :
  registry_inv s (VLDBLOCKHEADER <$> live) →
  valid_trace live [Delete a; Delete b] = true →
  ∃ s', run [Delete a; Delete b] s = Some (s', []) ∧
    registry_inv s' (VLDBLOCKHEADER <$> live_after live [Delete a; Delete b]) ∧
    serialnumber s' = serialnumber s ∧
    ∀ c hc', heap s' !! c = Some hc' →
      ∃ hc, heap s !! c = Some hc ∧ same_provenance hc hc'.
Proof.
  intros Hinv Hvalid.
  destruct (run_valid _ _ _ Hinv Hvalid) as (s' & log & Hrun & Hinv' & _ & _).
  cbn [run] in Hrun.
  destruct (vlddelete a s) as [ua sa tra| |] eqn:Hda; [|done..].
  destruct (vlddelete b sa) as [ub sb trb| |] eqn:Hdb; [|done..].
  simplify_eq. exists s'.
  destruct (vlddelete_keeps_provenance _ _ _ _ _ Hda) as [Hsa Hpa].
  destruct (vlddelete_keeps_provenance _ _ _ _ _ Hdb) as [Hsb Hpb].
  split_and!; [cbn [run]; by rewrite Hda, Hdb|done|congruence|].
  intros c hc' Hc'. destruct (Hpb _ _ Hc') as (h1 & Hc1 & (? & ? & ? & ?)).
  destruct (Hpa _ _ Hc1) as (h0 & Hc0 & (? & ? & ? & ?)).
  exists h0. split; [done|]. unfold same_provenance. split_and!; congruence.
Qed.

(** X9. Two deallocations that follow each other can be swapped: the
    sequence of calls stays valid and the run ends in the same state with
    the same allocations. *)
Theorem deallocations_commute (t1 t2 : list call) a b :
  valid_trace [] (t1 ++ Delete a :: Delete b :: t2) = true →
  valid_trace [] (t1 ++ Delete b :: Delete a :: t2) = true ∧
  ∃ r, run (t1 ++ Delete a :: Delete b :: t2) init_state = Some r ∧
       run (t1 ++ Delete b :: Delete a :: t2) init_state = Some r.
Proof.
  intros Hvalid.
  change (Delete a :: Delete b :: t2) with ([Delete a; Delete b] ++ t2) in *.
  change (Delete b :: Delete a :: t2) with ([Delete b; Delete a] ++ t2).
  rewrite !valid_trace_app in *.
  apply andb_true_iff in Hvalid as [Hv1 Hv]. apply andb_true_iff in Hv as [Hab Hv2].
  pose proof (valid_deletes_swap _ _ _ Hab) as Hba.
  assert (Hlive : live_after (live_after [] t1) [Delete b; Delete a]
                  = live_after (live_after [] t1) [Delete a; Delete b]).
  { apply live_step_deletes_commute. }
  split. { by rewrite Hv1, Hba, Hlive, Hv2. }
  destruct (run_valid t1 [] init_state registry_inv_init Hv1)
    as (s1 & log1 & Hrun1 & Hinv1 & _).
  destruct (run_two_deletes _ _ _ _ Hinv1 Hab) as (sab & Hrab & Hiab & Hsab & Hpab).
  destruct (run_two_deletes _ _ _ _ Hinv1 Hba) as (sba & Hrba & Hiba & Hsba & Hpba).
  rewrite Hlive in Hiba.
  assert (sba = sab) as ->.
  { destruct (registry_inv_determines _ _ _ Hiba Hiab) as [Hg Hm].
    - intros c h h' Hc Hc'.
      destruct (Hpba _ _ Hc) as (h0 & Hc0 & (? & ? & ? & ?)).
      destruct (Hpab _ _ Hc') as (h0' & Hc0' & (? & ? & ? & ?)).
      simplify_eq. unfold same_provenance. split_and!; congruence.
    - destruct sba, sab. simpl in *. congruence. }
  destruct (run_valid t2 _ _ Hiab Hv2) as (s2 & log2 & Hrun2 & _).
  exists (s2, log1 ++ log2).
  rewrite !(run_app _ _ _ _ _ Hrun1).
  rewrite (run_app _ _ _ _ _ Hrab), (run_app _ _ _ _ _ Hrba), Hrun2. done.
Qed.

End Canonical.

Section NewestFirst.
Context `{Platform}.
Implicit Types (m : gmap Z vldblockheader_t) (l : list Z).

Lemma header_serials_ext m m' l :
  (∀ a, a ∈ l → serialNumber <$> m' !! a = serialNumber <$> m !! a) →
  header_serials m' l = header_serials m l.
Proof.
  intros Hag. unfold header_serials. apply list_fmap_ext.
  intros i a Ha. rewrite Hag; [done|]. by eapply list_elem_of_lookup_2.
Qed.

Lemma dll_walk_serials m pp cur l :
  dll m pp cur l → walk_serials (length l) m cur = header_serials m l.
Proof.
  revert pp cur. induction l as [|a l IH]; intros pp cur; simpl.
  - by intros ->.
  - intros (-> & Hnz & h & Hh & _ & Hl).
    apply Z.eqb_neq in Hnz. rewrite Hnz, Hh. simpl.
    by rewrite (IH _ _ Hl).
Qed.

Lemma descending_filter (g : Z → Z) (P : Z → Prop) `{∀ x, Decision (P x)} l :
  descending (g <$> l) → descending (g <$> filter P l).
Proof.
  induction l as [|a l IH]; [done|]. simpl. intros [Ha Hl].
  rewrite filter_cons. destruct (decide (P a)); [|by apply IH].
  simpl. split; [|by apply IH].
  intros y (x & -> & Hx)%list_elem_of_fmap. apply Ha.
  apply list_elem_of_fmap. exists x. split; [done|].
  by apply list_elem_of_filter in Hx as [_ ?].
Qed.

Lemma run_descending t : ∀ live s n,
  registry_inv s (VLDBLOCKHEADER <$> live) →
  valid_trace live t = true →
  serialnumber s = Z.of_nat n mod 2 ^ size_bits →
  Z.of_nat n + Z.of_nat (successes t) ≤ 2 ^ size_bits →
  descending (header_serials (heap s) (VLDBLOCKHEADER <$> live)) →
  (∀ y, y ∈ header_serials (heap s) (VLDBLOCKHEADER <$> live) → y < Z.of_nat n) →
  ∃ s' log, run t s = Some (s', log) ∧
    registry_inv s' (VLDBLOCKHEADER <$> live_after live t) ∧
    descending (header_serials (heap s') (VLDBLOCKHEADER <$> live_after live t)).
Proof.
  induction t as [|c t IH]; intros live s n Hinv Hvalid Hsn Hroom Hdesc Hbound.
  { exists s, []. by split_and!. }
  simpl in Hvalid. apply andb_true_iff in Hvalid as [Hc Ht].
  rewrite live_after_cons.
  destruct c as [os j sz f ln|b]; simpl in Hc; cbn [live_step] in Ht |- *;
    unfold successes in Hroom; cbn [List.filter successful] in Hroom;
    fold (successes t) in Hroom.
  - apply andb_true_iff in Hc as [Hargs Hos].
    cbn [run]. rewrite vldnew_eq. unfold args_ok. rewrite Hargs.
    destruct (os =? nullptr) eqn:Hnull; simpl in Hos, Hroom.
    + destruct (IH live s n Hinv Ht Hsn Hroom Hdesc Hbound) as (s' & log & Hrun & ?).
      exists s', log. by rewrite Hrun.
    + apply andb_true_iff in Hos as [Hpos Hfresh].
      apply Z.ltb_lt in Hpos. apply negb_true_iff in Hfresh.
      rewrite (registry_inv_can_link _ _ os Hinv).
      assert (Hnotin : os ∉ VLDBLOCKHEADER <$> live).
      { rewrite <- (header_of_data os) at 1. rewrite header_elem_of.
        intros Hin%is_live_elem_of. congruence. }
      assert (Hinv1 : registry_inv (linked os sz f ln s)
                        (VLDBLOCKHEADER <$> (VLDBLOCKDATA os :: live))).
      { rewrite fmap_cons, header_of_data. apply registry_inv_linked; [done| |done].
        unfold nullptr. lia. }
      assert (Hn : serialnumber s = Z.of_nat n).
      { rewrite Hsn. apply Z.mod_small. lia. }
      assert (Hsame : header_serials (heap (linked os sz f ln s)) (VLDBLOCKHEADER <$> live)
                      = header_serials (heap s) (VLDBLOCKHEADER <$> live)).
      { apply header_serials_ext. intros a Ha. unfold linked. simpl.
        rewrite lookup_insert_ne by (by intros ->).
        rewrite lookup_alter_nz.
        - destruct (heap s !! a) as [ha|]; [|done]. simpl. by case_decide.
        - intros ->. destruct Hinv as (Hd & _). by apply (dll_nonnull _ _ _ _ Hd). }
      assert (Hhead : header_serials (heap (linked os sz f ln s))
                        (VLDBLOCKHEADER <$> (VLDBLOCKDATA os :: live))
                      = Z.of_nat n :: header_serials (heap s) (VLDBLOCKHEADER <$> live)).
      { rewrite fmap_cons, header_of_data. unfold header_serials at 1.
        rewrite fmap_cons. fold (header_serials (heap (linked os sz f ln s))
                                   (VLDBLOCKHEADER <$> live)).
        rewrite Hsame. f_equal. unfold linked. simpl.
        by rewrite lookup_insert_eq. }
      destruct (IH (VLDBLOCKDATA os :: live) (linked os sz f ln s) (S n) Hinv1 Ht)
        as (s' & log & Hrun & Hinv' & Hdesc').
      * unfold linked. simpl. rewrite Hsn, Zplus_mod_idemp_l. f_equal. lia.
      * unfold successes. lia.
      * rewrite Hhead. simpl. split; [|done]. intros y Hy. by apply Hbound.
      * rewrite Hhead. intros y [->|Hy]%elem_of_cons; [lia|].
        specialize (Hbound y Hy). lia.
      * rewrite Hrun. eexists _, _. by split_and!.
  - cbn [run]. rewrite vlddelete_eq.
    destruct (b =? nullptr) eqn:Hnull; simpl in Hc, Hroom.
    + destruct (IH live s n Hinv Ht Hsn Hroom Hdesc Hbound) as (s' & log & Hrun & ?).
      exists s', log. by rewrite Hrun.
    + apply is_live_elem_of, header_elem_of in Hc.
      destruct (registry_inv_unlinked _ _ _ Hinv Hc) as (h & Hh & Hcan & Hinv1).
      rewrite Hh, Hcan. rewrite <- header_filter in Hinv1.
      assert (Hsame : header_serials (heap (unlinked (VLDBLOCKHEADER b) h s))
                        (VLDBLOCKHEADER <$> filter (λ p, p ≠ b) live)
                      = header_serials (heap s) (VLDBLOCKHEADER <$> filter (λ p, p ≠ b) live)).
      { apply header_serials_ext. intros a Ha. unfold unlinked. simpl.
        rewrite lookup_unlinked.
        - destruct (heap s !! a) as [ha|]; [|done]. simpl.
          unfold patch. by repeat case_decide.
        - rewrite header_filter in Ha.
          by apply list_elem_of_filter in Ha as [? _].
        - intros ->. destruct Hinv1 as (Hd & _). by apply (dll_nonnull _ _ _ _ Hd). }
      assert (Hsub : ∀ y, y ∈ header_serials (heap s) (VLDBLOCKHEADER <$> filter (λ p, p ≠ b) live) →
                          y ∈ header_serials (heap s) (VLDBLOCKHEADER <$> live)).
      { intros y. unfold header_serials. rewrite !list_elem_of_fmap.
        intros (a & -> & (p & -> & Hp)%list_elem_of_fmap).
        apply list_elem_of_filter in Hp as [_ Hp].
        eexists. split; [done|]. by apply list_elem_of_fmap_2. }
      destruct (IH (filter (λ p, p ≠ b) live) (unlinked (VLDBLOCKHEADER b) h s) n Hinv1 Ht)
        as (s' & log & Hrun & Hinv' & Hdesc'); try done.
      * rewrite Hsame. unfold header_serials in *. rewrite <- !list_fmap_compose in *.
        by apply descending_filter.
      * rewrite Hsame. intros y Hy. by apply Hbound, Hsub.
      * exists s', log. by split_and!.
Qed.

(** X10. As long as the serial counter has not wrapped, the registry
    lists the outstanding blocks newest first: walking it from the head
    visits every block of the heap, with strictly decreasing serial
    numbers. *)
Theorem registry_lists_newest_first (t : list call) :
  valid_trace [] t = true →
  Z.of_nat (successes t) ≤ 2 ^ size_bits →
  ∃ s log, run t init_state = Some (s, log) ∧
    length (walk_serials (base.size (heap s)) (heap s) (g_vldBlockList s))
    = base.size (heap s) ∧
    descending (walk_serials (base.size (heap s)) (heap s) (g_vldBlockList s)).
Proof.
  intros Hvalid Hroom.
  destruct (run_descending t [] init_state 0 registry_inv_init Hvalid)
    as (s & log & Hrun & Hinv & Hdesc); try done.
  { intros y Hy. by apply elem_of_nil in Hy. }
  exists s, log. split; [done|].
  rewrite (registry_inv_size _ _ Hinv).
  destruct Hinv as (Hdll & _). rewrite (dll_walk_serials _ _ _ _ Hdll).
  split; [|done]. unfold header_serials. by rewrite length_fmap.
Qed.

End NewestFirst.

Section QueryExtras.
Import LoadCycle.

Lemma INT_UINT_minus_one (n : Z) :
  INT (UINT n) = -1 ↔ n mod 2 ^ 32 = 2 ^ 32 - 1.
Proof.
  unfold INT, UINT.
  pose proof (Z.mod_pos_bound n (2 ^ 32) eq_refl) as Hu.
  set (u := n mod 2 ^ 32) in *. clearbody u.
  destruct (Z_lt_le_dec u (2 ^ 31)) as [Hlt|Hge].
  - rewrite Z.mod_small by lia. lia.
  - replace ((u + 2 ^ 31) mod 2 ^ 32) with (u + 2 ^ 31 - 2 ^ 32).
    + lia.
    + apply (Z.mod_unique_pos _ _ 1); lia.
Qed.

(** X11. Read as an [int], the result of [VLDGetLeaksCount] of the test
    is the number of unresolved allocations while the module is loaded and
    that number is below [2 ^ 31]; it is -1 exactly when the module is not
    loaded or the count is [2 ^ 32 - 1] modulo [2 ^ 32]. *)
Theorem leak_count_read_as_int (p : process) :
  (load_depth p ≠ 0%nat → Z.of_nat (tracked p) < 2 ^ 31 →
     INT (VLDGetLeaksCount p) = Z.of_nat (tracked p)) ∧
  (INT (VLDGetLeaksCount p) = -1 ↔
     load_depth p = 0%nat ∨ Z.of_nat (tracked p) mod 2 ^ 32 = 2 ^ 32 - 1).
Proof.
  unfold VLDGetLeaksCount, GetModuleHandle, GetProcAddress_VLDGetLeaksCount,
    queryActiveLeakCount.
  destruct p as [[|d] st n r]; simpl.
  - split; [done|]. split; [by left|done].
  - split.
    + intros _ Hlt. unfold INT, UINT. rewrite (Z.mod_small (Z.of_nat _)) by lia.
      rewrite Z.mod_small by lia. lia.
    + rewrite INT_UINT_minus_one. split; [by right|]. by intros [?|?].
Qed.

End QueryExtras.

(** * The further properties at concrete inputs, on the 32-bit target *)

Section ExtrasOnX86.
#[local] Existing Instance x86.

Lemma new_then_delete_restores_registry_witness :
  ∃ s log s1 tr1 s2 tr2,
    run sample_calls init_state = Some (s, log) ∧
    call_new VectorNew 5000 junk 4 500 20 s = Done (VLDBLOCKDATA 5000) s1 tr1 ∧
    call_delete (ScalarPlacementDelete 500 20) (VLDBLOCKDATA 5000) s1 = Done tt s2 tr2 ∧
    s2 = State (g_vldBlockList s) ((serialnumber s + 1) mod 2 ^ size_bits) (heap s).
Proof.
  apply (@new_then_delete_restores_registry x86 VectorNew (ScalarPlacementDelete 500 20)
           sample_calls 5000 junk 4 500 20).
  - reflexivity.
  - vm_compute. discriminate.
Defined.

Lemma vldnew_links_at_front_witness :
  let s := linked 1000 8 500 10 init_state in
  let s' := linked 2000 16 500 11 s in
  g_vldBlockList s' = VLDBLOCKHEADER 2024 ∧
  (∃ h, heap s' !! VLDBLOCKHEADER 2024 = Some h ∧
        next h = g_vldBlockList s ∧ prev h = nullptr ∧
        serialNumber h = serialnumber s) ∧
  (∀ a, a ≠ VLDBLOCKHEADER 2024 → a ≠ g_vldBlockList s →
        heap s' !! a = heap s !! a) ∧
  (g_vldBlockList s ≠ VLDBLOCKHEADER 2024 → g_vldBlockList s ≠ nullptr →
   heap s' !! g_vldBlockList s
   = set_prev (VLDBLOCKHEADER 2024) <$> heap s !! g_vldBlockList s).
Proof.
  apply (@vldnew_links_at_front x86 2000 junk 16 500 11
           (linked 1000 8 500 10 init_state) 2024
           (linked 2000 16 500 11 (linked 1000 8 500 10 init_state))
           (new_events 2000 16 1000)).
  - vm_compute. reflexivity.
  - vm_compute. discriminate.
Defined.

Lemma vlddelete_unlinks_locally_witness :
  let s := linked 2000 16 500 11 (linked 1000 8 500 10 init_state) in
  let s' := unlinked 1000 (Header nullptr 2000 500 10 0 8) s in
  ∃ h, heap s !! VLDBLOCKHEADER 1024 = Some h ∧
    heap s' !! VLDBLOCKHEADER 1024 = None ∧
    serialnumber s' = serialnumber s ∧
    g_vldBlockList s' = (if prev h =? nullptr then next h else g_vldBlockList s) ∧
    (∀ a, a ≠ VLDBLOCKHEADER 1024 → a ≠ prev h → a ≠ next h →
          heap s' !! a = heap s !! a) ∧
    (∀ a ha, a ≠ VLDBLOCKHEADER 1024 → heap s !! a = Some ha →
          ∃ ha', heap s' !! a = Some ha' ∧ same_provenance ha ha').
Proof.
  apply (@vlddelete_unlinks_locally x86 1024
           (linked 2000 16 500 11 (linked 1000 8 500 10 init_state)) tt
           (unlinked 1000 (Header nullptr 2000 500 10 0 8)
              (linked 2000 16 500 11 (linked 1000 8 500 10 init_state)))
           (delete_events 1000 (Header nullptr 2000 500 10 0 8))).
  - vm_compute. reflexivity.
  - vm_compute. discriminate.
Defined.

Lemma registry_counts_outstanding_blocks_witness :
  ∃ s log, run sample_calls init_state = Some (s, log) ∧
    (base.size (heap s) + deletions sample_calls = successes sample_calls)%nat ∧
    (g_vldBlockList s = nullptr ↔ successes sample_calls = deletions sample_calls) ∧
    (g_vldBlockList s = nullptr → heap s = ∅).
Proof. apply (@registry_counts_outstanding_blocks x86 sample_calls). reflexivity. Defined.

Lemma run_ignores_early_returns_witness :
  run sample_calls init_state = run (List.filter effective sample_calls) init_state.
Proof. apply (@run_ignores_early_returns x86 sample_calls init_state). reflexivity. Defined.

Lemma vldnew_request_size_witness :
  (∃ rest, new_events 1000 4294967288 nullptr
           = EvRtlAllocateHeap (request 4294967288) 1000 :: rest) ∧
  (4294967288 < 2 ^ 32 - 24 → request 4294967288 = 4294967288 + 24) ∧
  (2 ^ 32 - 24 ≤ 4294967288 →
     request 4294967288 = 4294967288 + 24 - 2 ^ 32 ∧ request 4294967288 < 24).
Proof.
  apply (@vldnew_request_size x86 1000 junk 4294967288 500 10 init_state 1024
           (linked 1000 4294967288 500 10 init_state)
           (new_events 1000 4294967288 nullptr)).
  - vm_compute. reflexivity.
  - vm_compute. split; [discriminate|reflexivity].
  - reflexivity.
Defined.

Lemma outstanding_block_keeps_provenance_witness :
  ∃ s log h,
    run ([New 1000 junk 8 500 10] ++ New 2000 junk 16 500 11
           :: [New 3000 junk 1 500 12; Delete 1024; Delete nullptr]) init_state
    = Some (s, log) ∧
    heap s !! VLDBLOCKHEADER (VLDBLOCKDATA 2000) = Some h ∧
    size h = 16 ∧ file h = 500 ∧ line h = 11 ∧
    serialNumber h = Z.of_nat (successes [New 1000 junk 8 500 10]) mod 2 ^ size_bits.
Proof.
  apply (@outstanding_block_keeps_provenance x86 [New 1000 junk 8 500 10]
           [New 3000 junk 1 500 12; Delete 1024; Delete nullptr] 2000 junk 16 500 11).
  - reflexivity.
  - vm_compute. discriminate.
  - intros Hin. vm_compute in Hin.
    repeat (apply elem_of_cons in Hin as [Hin|Hin]; [discriminate Hin|]).
    by apply elem_of_nil in Hin.
Defined.

Lemma deallocations_commute_witness :
  let t1 := [New 1000 junk 8 500 10; New 2000 junk 16 500 11; New 3000 junk 1 500 12] in
  let t2 := [New 4000 junk 2 500 13; Delete 2024] in
  valid_trace [] (t1 ++ Delete 3024 :: Delete 1024 :: t2) = true ∧
  ∃ r, run (t1 ++ Delete 1024 :: Delete 3024 :: t2) init_state = Some r ∧
       run (t1 ++ Delete 3024 :: Delete 1024 :: t2) init_state = Some r.
Proof.
  apply (@deallocations_commute x86
           [New 1000 junk 8 500 10; New 2000 junk 16 500 11; New 3000 junk 1 500 12]
           [New 4000 junk 2 500 13; Delete 2024] 1024 3024).
  reflexivity.
Defined.

Lemma registry_lists_newest_first_witness :
  ∃ s log, run sample_calls init_state = Some (s, log) ∧
    length (walk_serials (base.size (heap s)) (heap s) (g_vldBlockList s))
    = base.size (heap s) ∧
    descending (walk_serials (base.size (heap s)) (heap s) (g_vldBlockList s)).
Proof.
  apply (@registry_lists_newest_first x86 sample_calls).
  - reflexivity.
  - vm_compute. discriminate.
Defined.

Import LoadCycle.

Lemma leak_count_read_as_int_witness :
  INT (VLDGetLeaksCount (host_alloc (host_alloc (onLoad boot)))) = 2.
Proof.
  apply (proj1 (leak_count_read_as_int (host_alloc (host_alloc (onLoad boot))))).
  - vm_compute. discriminate.
  - reflexivity.
Defined.

End ExtrasOnX86.

(** * Calls from several threads *)

(** ** The steps of one thread *)
Section StepsOfOneThread.
Context `{Platform}.

Lemma M_bind_ext {A B} (m m' : M A) (k k' : A → M B) s :
  m s = m' s → (∀ x s1, k x s1 = k' x s1) → (m ≫= k) s = (m' ≫= k') s.
Proof.
  intros Hm Hk. unfold mbind, M_bind, bind. rewrite Hm.
  destruct (m' s) as [x s1 tr| |]; [|done..]. by rewrite Hk.
Qed.

Lemma M_bind_assoc {A B C} (m : M A) (k : A → M B) (k' : B → M C) s :
  ((m ≫= k) ≫= k') s = (m ≫= λ x, k x ≫= k') s.
Proof.
  unfold mbind, M_bind, bind.
  destruct (m s) as [x s1 tr1| |]; [|done..].
  destruct (k x s1) as [y s2 tr2| |]; [|done..].
  destruct (k' y s2) as [z s3 tr3| |]; [|done..].
  by rewrite app_assoc.
Qed.

Lemma M_bind_ret_l {A B} (a : A) (k : A → M B) s : (ret a ≫= k) s = k a s.
Proof. unfold mbind, M_bind, bind, ret. by destruct (k a s). Qed.

Lemma M_bind_ret_r {A} (m : M A) s : (m ≫= ret) s = m s.
Proof.
  unfold mbind, M_bind, bind, ret.
  destruct (m s) as [x s1 tr| |]; [|done..]. by rewrite app_nil_r.
Qed.

Lemma exec_prog_stmt {X} (m : M X) s : exec_prog (stmt m) s = m s.
Proof. apply (M_bind_ret_r m). Qed.

Lemma exec_prog_stmt_bind {X A} (m : M X) (k : X → prog A) s :
  exec_prog (stmt m ≫= k) s = (m ≫= λ x, exec_prog (k x)) s.
Proof. reflexivity. Qed.

Lemma exec_prog_bind {A B} (p : prog A) (k : A → prog B) s :
  exec_prog (p ≫= k) s = (exec_prog p ≫= λ a, exec_prog (k a)) s.
Proof.
  revert s. induction p as [a|X m k' IH|p IH|p IH]; intros s.
  - symmetry. apply (M_bind_ret_l a (λ a, exec_prog (k a))).
  - change ((m ≫= λ x, exec_prog (k' x ≫= k)) s
            = ((m ≫= λ x, exec_prog (k' x)) ≫= λ a, exec_prog (k a)) s).
    rewrite M_bind_assoc. apply M_bind_ext; [done|]. intros x s1. apply IH.
  - change ((emit EvLock ≫= λ _, exec_prog (p ≫= k)) s
            = ((emit EvLock ≫= λ _, exec_prog p) ≫= λ a, exec_prog (k a)) s).
    rewrite M_bind_assoc. apply M_bind_ext; [done|]. intros x s1. apply IH.
  - change ((emit EvUnlock ≫= λ _, exec_prog (p ≫= k)) s
            = ((emit EvUnlock ≫= λ _, exec_prog p) ≫= λ a, exec_prog (k a)) s).
    rewrite M_bind_assoc. apply M_bind_ext; [done|]. intros x s1. apply IH.
Qed.

Lemma exec_prog_scoped_lock {A} (body : prog A) (body' : M A) s :
  (∀ s1, exec_prog body s1 = body' s1) →
  exec_prog (scoped_lock_steps body) s = scoped_lock body' s.
Proof.
  intros Hbody. unfold scoped_lock_steps, scoped_lock.
  change ((emit EvLock ≫= λ _, exec_prog (body ≫= λ r, Unlock (Ret tt) ≫= λ _, mret r)) s
          = (emit EvLock ≫= λ _, body' ≫= λ r, emit EvUnlock ≫= λ _, ret r) s).
  apply M_bind_ext; [done|]. intros _ s1. rewrite exec_prog_bind.
  apply M_bind_ext; [apply Hbody|]. done.
Qed.

(** [serialnumber++] is the read of the counter followed by the write of
    the incremented value. *)
Lemma serialnumber_postinc_split {A} (k : Z → M A) s :
  (serialnumber_postinc ≫= k) s
  = (read_serialnumber ≫= λ sn,
       write_serialnumber ((sn + 1) mod 2 ^ size_bits) ≫= λ _, k sn) s.
Proof.
  unfold mbind, M_bind, bind, serialnumber_postinc, read_serialnumber,
    write_serialnumber. simpl.
  by destruct (k _ _).
Qed.

Ltac next_stmt :=
  rewrite exec_prog_stmt_bind; apply M_bind_ext; [reflexivity|]; intros ? ?.

(** The steps of [vldnew_steps], taken without another thread in between,
    are [vldnew]: same result, same state, same events. *)
Lemma vldnew_steps_uninterrupted os junk sz f ln s :
  exec_prog (vldnew_steps os junk sz f ln) s = vldnew os junk sz f ln s.
Proof.
  unfold vldnew_steps, vldnew.
  next_stmt. next_stmt. next_stmt. next_stmt.
  destruct (_ =? nullptr); [reflexivity|].
  next_stmt. next_stmt.
  rewrite exec_prog_stmt_bind, serialnumber_postinc_split.
  apply M_bind_ext; [reflexivity|]; intros sn ?.
  next_stmt. next_stmt. next_stmt.
  apply exec_prog_scoped_lock. intros ?.
  next_stmt. next_stmt. next_stmt.
  rewrite exec_prog_bind. apply M_bind_ext.
  - destruct (negb _); [|reflexivity]. next_stmt. apply exec_prog_stmt.
  - intros ? ?. next_stmt. next_stmt. reflexivity.
Qed.

End StepsOfOneThread.

(** ** Two allocations at once *)
Section Interleaving.
Context `{Platform}.

Lemma run_schedule_Do {A X} i r s mu (ts : list (prog A)) ev p (m : M X) k x s' tr :
  ts !! i = Some p → p = Do m k → m s = Done x s' tr →
  run_schedule (i :: r) (Machine s mu ts ev)
  = run_schedule r (Machine s' mu (<[i := k x]> ts) (ev ++ ((λ e, (i, e)) <$> tr))).
Proof. intros Hi -> Hm. simpl. unfold step_thread. simpl. by rewrite Hi, Hm. Qed.

Lemma run_schedule_Lock {A} i r s (ts : list (prog A)) ev p k :
  ts !! i = Some p → p = Lock k →
  run_schedule (i :: r) (Machine s None ts ev)
  = run_schedule r (Machine s (Some i) (<[i := k]> ts) (ev ++ [(i, EvLock)])).
Proof. intros Hi ->. simpl. unfold step_thread. simpl. by rewrite Hi. Qed.

Lemma run_schedule_Unlock {A} i r s mu (ts : list (prog A)) ev p k :
  ts !! i = Some p → p = Unlock k →
  run_schedule (i :: r) (Machine s mu ts ev)
  = run_schedule r (Machine s None (<[i := k]> ts) (ev ++ [(i, EvUnlock)])).
Proof. intros Hi ->. simpl. unfold step_thread. simpl. by rewrite Hi. Qed.

Lemma run_schedule_Ret {A} i r (mc : machine A) p a :
  threads mc !! i = Some p → p = Ret a →
  run_schedule (i :: r) mc = run_schedule r mc.
Proof. intros Hi ->. simpl. unfold step_thread. by rewrite Hi. Qed.

Lemma store_done a f v s h :
  heap s !! a = Some h →
  store a f v s =
  Done tt (State (g_vldBlockList s) (serialnumber s) (<[a := set_field f v h]> (heap s)))
       [EvField a f true].
Proof. intros Hh. unfold store. by rewrite Hh. Qed.

(** The counter never keeps its value when it is incremented. *)
Lemma serialnumber_moves sn : (sn + 1) mod 2 ^ size_bits ≠ sn.
Proof.
  pose proof size_bits_pos as Hw.
  assert (HM : 2 ^ 1 ≤ 2 ^ size_bits) by (apply Z.pow_le_mono_r; lia).
  change (2 ^ 1) with 2 in HM. revert HM. generalize (2 ^ size_bits) as M.
  intros M HM Heq.
  pose proof (Z.mod_pos_bound (sn + 1) M ltac:(lia)) as Hb.
  rewrite Heq in Hb.
  destruct (decide (sn + 1 < M)) as [Hlt|Hge].
  - rewrite Z.mod_small in Heq; lia.
  - replace (sn + 1) with M in Heq by lia.
    rewrite Z_mod_same_full in Heq. lia.
Qed.

(** One step of the scheduled thread, by the kind of its next statement. *)
Ltac lookup_block :=
  cbn [heap]; repeat (rewrite lookup_insert_ne by congruence);
  first [apply lookup_insert_eq | eassumption].
Ltac tidy :=
  cbn [mbind prog_mbind prog_bind stmt mret prog_ret scoped_lock_steps insert list_insert
       g_vldBlockList serialnumber heap get_field set_field next prev
       set_next set_prev set_file set_line set_serialNumber set_size].
Ltac do_stmt tac :=
  erewrite run_schedule_Do; [|reflexivity|reflexivity|tac]; tidy.
Ltac do_assert Hb := do_stmt ltac:(rewrite ?Hb; reflexivity).
Ltac do_alloc Hos :=
  do_stmt ltac:(unfold RtlAllocateHeap; rewrite Hos; reflexivity); rewrite Hos; tidy.
Ltac do_store := do_stmt ltac:(eapply store_done; lookup_block).
Ltac do_load := do_stmt ltac:(eapply load_done; lookup_block).
Ltac do_global := do_stmt ltac:(reflexivity).
Ltac do_lock := erewrite run_schedule_Lock; [|reflexivity|reflexivity]; tidy.
Ltac do_unlock := erewrite run_schedule_Unlock; [|reflexivity|reflexivity]; tidy.
Ltac do_nothing := erewrite run_schedule_Ret; [|reflexivity|reflexivity].
Ltac read_link :=
  repeat match goal with
         | Hb : negb (?a =? nullptr) = true |- context [negb (?a =? nullptr)] => rewrite Hb
         end;
  try change (negb (nullptr =? nullptr)) with false; tidy.

(** The parts of a call: up to the read of the counter, from the write of
    the counter to the lock, and the link step into an empty or a non-empty
    registry. *)
Ltac before_counter Hs Hn Hl Hos :=
  do_assert Hs; do_assert Hn; do_assert Hl; do_alloc Hos; do_store; do_store; do_global.
Ltac after_counter := do_global; do_store; do_store.
Ltac link_first :=
  do_lock; do_global; do_store; do_load; read_link; do_store; do_global; do_unlock.
Ltac link_next :=
  do_lock; do_global; do_store; do_load; read_link; do_load; do_store;
  do_store; do_global; do_unlock.
Ltac read_serial :=
  unfold serial_of; cbn [shared heap];
  repeat (rewrite lookup_insert_ne by congruence); rewrite lookup_insert_eq; reflexivity.
Ltac read_machine :=
  cbn [shared serialnumber mutex]; split_and!;
  first [reflexivity | read_serial | idtac].

(** C9. [vldnew] is not safe to call from two threads at once.  It
    increments the serial-number counter before it takes the heap mutex, so
    two calls can both read the counter before either writes it back.  Take
    two calls with arguments that pass the assertions, to which the
    operating system gives two different fresh blocks, in a state whose list
    head is null or an allocated block.  Under the schedule [lost_update]
    both calls return their block, but the two blocks carry the same serial
    number and the counter has advanced by one only.  When the same two
    calls run one after the other the blocks get two different serial
    numbers and the counter advances twice. *)
Theorem concurrent_allocations_share_a_serial_number
    os0 os1 junk0 junk1 sz0 f0 ln0 sz1 f1 ln1 s :
  args_ok sz0 f0 ln0 = true → args_ok sz1 f1 ln1 = true →
  os0 ≠ nullptr → os1 ≠ nullptr → os0 ≠ os1 →
  heap s !! os0 = None → heap s !! os1 = None →
  g_vldBlockList s = nullptr ∨ is_Some (heap s !! g_vldBlockList s) →
  let a := vldnew_steps os0 junk0 sz0 f0 ln0 in
  let b := vldnew_steps os1 junk1 sz1 f1 ln1 in
  (∃ mc,
     run_schedule lost_update (start s [a; b]) = Some mc ∧
     returned mc = [Some (VLDBLOCKDATA os0); Some (VLDBLOCKDATA os1)] ∧
     mutex mc = None ∧
     List.filter is_serial_access (events mc)
     = [(0%nat, EvSerial false); (1%nat, EvSerial false);
        (1%nat, EvSerial true); (0%nat, EvSerial true)] ∧
     serial_of mc os0 = Some (serialnumber s) ∧
     serial_of mc os1 = Some (serialnumber s) ∧
     serialnumber (shared mc) = (serialnumber s + 1) mod 2 ^ size_bits) ∧
  (∃ mc,
     run_schedule one_after_the_other (start s [a; b]) = Some mc ∧
     returned mc = [Some (VLDBLOCKDATA os0); Some (VLDBLOCKDATA os1)] ∧
     mutex mc = None ∧
     serial_of mc os0 = Some (serialnumber s) ∧
     serial_of mc os1 = Some ((serialnumber s + 1) mod 2 ^ size_bits) ∧
     (serialnumber s + 1) mod 2 ^ size_bits ≠ serialnumber s ∧
     serialnumber (shared mc)
     = ((serialnumber s + 1) mod 2 ^ size_bits + 1) mod 2 ^ size_bits).
Proof.
  intros Ha0 Ha1 Hos0 Hos1 Hne Hf0 Hf1 Hg a b. subst a b.
  unfold args_ok in Ha0, Ha1.
  apply andb_prop in Ha0 as [Ha0 Hl0]. apply andb_prop in Ha0 as [Hs0 Hn0].
  apply andb_prop in Ha1 as [Ha1 Hl1]. apply andb_prop in Ha1 as [Hs1 Hn1].
  assert (Hnn0 : negb (os0 =? nullptr) = true) by (by apply negb_true_iff, Z.eqb_neq).
  assert (Hnn1 : negb (os1 =? nullptr) = true) by (by apply negb_true_iff, Z.eqb_neq).
  apply Z.eqb_neq in Hos0, Hos1.
  destruct s as [g sn m]. simpl in Hf0, Hf1, Hg.
  unfold start, lost_update, one_after_the_other.
  repeat match goal with |- context [run_schedule ?l _] =>
    progress (let l' := eval vm_compute in l in change l with l') end.
  unfold vldnew_steps. cbn [serialnumber].
  destruct (decide (g = nullptr)) as [->|Hgn].
  - split.
    + before_counter Hs0 Hn0 Hl0 Hos0.
      before_counter Hs1 Hn1 Hl1 Hos1. after_counter. link_first.
      do_nothing. do_nothing.
      after_counter. link_next.
      eexists. split; [reflexivity|]. read_machine.
    + before_counter Hs0 Hn0 Hl0 Hos0. after_counter. link_first.
      do_nothing. do_nothing.
      before_counter Hs1 Hn1 Hl1 Hos1. after_counter. link_next.
      eexists. split; [reflexivity|]. read_machine.
      apply serialnumber_moves.
  - destruct Hg as [?|[hg Hmg]]; [done|].
    assert (Hg0 : g ≠ os0) by congruence.
    assert (Hg1 : g ≠ os1) by congruence.
    assert (Hgb : negb (g =? nullptr) = true) by (by apply negb_true_iff, Z.eqb_neq).
    split.
    + before_counter Hs0 Hn0 Hl0 Hos0.
      before_counter Hs1 Hn1 Hl1 Hos1. after_counter. link_next.
      after_counter. link_next.
      eexists. split; [reflexivity|]. read_machine.
    + before_counter Hs0 Hn0 Hl0 Hos0. after_counter. link_next.
      before_counter Hs1 Hn1 Hl1 Hos1. after_counter. link_next.
      eexists. split; [reflexivity|]. read_machine.
      apply serialnumber_moves.
Qed.

End Interleaving.

Section InterleavingOnX86.
#[local] Existing Instance x86.

Lemma concurrent_allocations_share_a_serial_number_witness :
  let a := vldnew_steps 1000 junk 8 500 10 in
  let b := vldnew_steps 2000 junk 16 500 11 in
  (∃ mc,
     run_schedule lost_update (start init_state [a; b]) = Some mc ∧
     returned mc = [Some 1024; Some 2024] ∧
     mutex mc = None ∧
     List.filter is_serial_access (events mc)
     = [(0%nat, EvSerial false); (1%nat, EvSerial false);
        (1%nat, EvSerial true); (0%nat, EvSerial true)] ∧
     serial_of mc 1000 = Some 0 ∧
     serial_of mc 2000 = Some 0 ∧
     serialnumber (shared mc) = 1) ∧
  (∃ mc,
     run_schedule one_after_the_other (start init_state [a; b]) = Some mc ∧
     returned mc = [Some 1024; Some 2024] ∧
     mutex mc = None ∧
     serial_of mc 1000 = Some 0 ∧
     serial_of mc 2000 = Some 1 ∧
     1 ≠ 0 ∧
     serialnumber (shared mc) = 2).
Proof.
  apply (@concurrent_allocations_share_a_serial_number x86
           1000 2000 junk junk 8 500 10 16 500 11 init_state).
  - reflexivity.
  - reflexivity.
  - vm_compute. discriminate.
  - vm_compute. discriminate.
  - lia.
  - reflexivity.
  - reflexivity.
  - left. reflexivity.
Defined.

End InterleavingOnX86.
